(** * EvolutionaryLLMs: the population loop of [EvolutionaryLLMs.py]

    A shallow embedding of class [Population] and of the interpreter
    services it calls ([max], [list.sort], [random.random],
    [random.choice], [random.sample]), followed by the properties of the
    generation loop.

    The source is Python 3 (it uses f-strings, lines 46 and 74).  Methods
    mutate [self] and call strategy objects that may raise, so they are
    modelled in a state-and-exception monad whose state survives a raise,
    as the attributes of a Python object do. *)

From Stdlib Require Import String List ZArith QArith Bool Lia.
Import ListNotations.

Local Open Scope Z_scope.

(** ** Values *)

(** What the population holds.  [Gene] is an opaque candidate, named by a
    string.  Python lists are untyped, and [kill_the_weak] slices the list
    of [(gene, fitness)] tuples itself, so a list of "genes" could hold
    such tuples: [Tuple] is that case. *)
Inductive Obj : Type :=
| Gene (name : string)
| Tuple (gene : Obj) (fitness : Z).

(** Exception classes the interpreter raises in this program, and
    [Raised] for whatever a strategy object raises, told apart by its
    message. *)
Inductive Exn : Type :=
| AssertionError
| TypeError
| ValueError
| IndexError
| AttributeError
| Raised (message : string).

Definition exn_name (e : Exn) : string :=
  match e with
  | AssertionError => "AssertionError"
  | TypeError => "TypeError"
  | ValueError => "ValueError"
  | IndexError => "IndexError"
  | AttributeError => "AttributeError"
  | Raised _ => "Exception"
  end.

(** What can be observed from outside: the line printed at the start of a
    generation and the calls made on the three strategies. *)
Inductive Event : Type :=
| EvPrint (generation_num : nat)
| EvEvaluate (gene : Obj)
| EvMutate (gene : Obj)
| EvBreed (gene_1 gene_2 : Obj).

Definition is_evaluate (ev : Event) : bool :=
  match ev with EvEvaluate _ => true | _ => false end.

Definition is_mutate (ev : Event) : bool :=
  match ev with EvMutate _ => true | _ => false end.

Definition is_breed (ev : Event) : bool :=
  match ev with EvBreed _ _ => true | _ => false end.

(** ** Strategies (the abstract classes of lines 15-30)

    A strategy is an object with its own state; its answer may depend on
    everything that happened before the call, which is passed as the
    history.  It returns a value or raises.

    The scores an evaluator returns are Python integers: they are
    totally ordered and compare exactly with the float [-1e99] the
    object starts from.  Everything below is about evaluators of that
    kind.  Floats that may be NaN, and [Evaluation] objects that do not
    compare with a float, are not covered. *)
Record Evaluator : Type := { evaluate : list Event -> Obj -> Exn + Z }.
Record Mutator : Type := { mutate : list Event -> Obj -> Exn + Obj }.
Record Breeder : Type := { breed : list Event -> Obj -> Obj -> Exn + Obj }.

(** ** The Population object and the world around it *)

Record Population : Type := {
  num_organisms : Z;
  evaluator : Evaluator;
  mutator : Mutator;
  breeder : Breeder;
  selection_criteria : string;
  topk : Z;
  organisms : list Obj;
  best_gene : option Obj;
  best_fitness : Z;
  mutate_probability : Q
}.

(** The random source is a tape of raw draws read at a cursor; the trace
    records the events in the order they happen. *)
Record World : Type := {
  trace : list Event;
  tape : nat -> N;
  cursor : nat
}.

Record State : Type := { self : Population; world : World }.

Definition set_organisms (l : list Obj) (p : Population) : Population :=
  {| num_organisms := num_organisms p; evaluator := evaluator p;
     mutator := mutator p; breeder := breeder p;
     selection_criteria := selection_criteria p; topk := topk p;
     organisms := l;
     best_gene := best_gene p; best_fitness := best_fitness p;
     mutate_probability := mutate_probability p |}.

Definition set_best (g : option Obj) (f : Z) (p : Population) : Population :=
  {| num_organisms := num_organisms p; evaluator := evaluator p;
     mutator := mutator p; breeder := breeder p;
     selection_criteria := selection_criteria p; topk := topk p;
     organisms := organisms p;
     best_gene := g; best_fitness := f;
     mutate_probability := mutate_probability p |}.

Definition set_mutate_probability (q : Q) (p : Population) : Population :=
  {| num_organisms := num_organisms p; evaluator := evaluator p;
     mutator := mutator p; breeder := breeder p;
     selection_criteria := selection_criteria p; topk := topk p;
     organisms := organisms p;
     best_gene := best_gene p; best_fitness := best_fitness p;
     mutate_probability := q |}.

Definition log (ev : Event) (w : World) : World :=
  {| trace := trace w ++ [ev]; tape := tape w; cursor := cursor w |}.

Definition advance (w : World) : World :=
  {| trace := trace w; tape := tape w; cursor := S (cursor w) |}.

(** ** The monad: state that survives an exception *)

Inductive Outcome (A : Type) : Type :=
| Ok (a : A)
| Raise (e : Exn).
Arguments Ok {A} a.
Arguments Raise {A} e.

Definition M (A : Type) : Type := State -> Outcome A * State.

Definition ret {A} (a : A) : M A := fun st => (Ok a, st).

Definition raise {A} (e : Exn) : M A := fun st => (Raise e, st).

Definition bind {A B} (m : M A) (k : A -> M B) : M B :=
  fun st =>
    match m st with
    | (Ok a, st') => k a st'
    | (Raise e, st') => (Raise e, st')
    end.

Notation "x <- m ;; k" := (bind m (fun x => k))
  (at level 61, m at next level, right associativity).
Notation "m ;;; k" := (bind m (fun _ => k))
  (at level 61, right associativity).

Definition lift {A} (r : Exn + A) : M A :=
  match r with inl e => raise e | inr a => ret a end.

Definition get_self : M Population := fun st => (Ok (self st), st).

Definition modify_self (f : Population -> Population) : M unit :=
  fun st => (Ok tt, {| self := f (self st); world := world st |}).

Definition modify_world (f : World -> World) : M unit :=
  fun st => (Ok tt, {| self := self st; world := f (world st) |}).

Fixpoint mapM {A B} (f : A -> M B) (l : list A) : M (list B) :=
  match l with
  | [] => ret []
  | a :: l' => b <- f a ;; bs <- mapM f l' ;; ret (b :: bs)
  end.

(** ** Interpreter services *)

(** [range(n)]: empty when [n <= 0]. *)
Definition range (n : Z) : list nat := seq 0 (Z.to_nat n).

(** [tqdm(it)] yields the elements of [it]; its progress bar is outside
    the model. *)
Definition tqdm {A} (it : list A) : list A := it.

(** [print(f"Running Generation {generation_num}")]. *)
Definition print (generation_num : nat) : M unit :=
  modify_world (log (EvPrint generation_num)).

(** [max(l, key=key)]: the first element whose key is largest;
    [ValueError] on an empty list. *)
Fixpoint max_from {A} (key : A -> Z) (best : A) (l : list A) : A :=
  match l with
  | [] => best
  | x :: l' => max_from key (if key x >? key best then x else best) l'
  end.

Definition py_max {A} (l : list A) (key : A -> Z) : Exn + A :=
  match l with
  | [] => inl ValueError
  | x :: l' => inr (max_from key x l')
  end.

(** [list.sort] takes [key] and [reverse] as keyword arguments only: a
    positional argument raises [TypeError] before anything is sorted.
    With a key the sort is stable and ascending.  Without one the
    elements themselves are compared, here [(gene, fitness)] tuples, gene
    first, and class [Gene] defines no order: [TypeError] as soon as two
    elements have to be compared. *)
Fixpoint insert_by {A} (key : A -> Z) (x : A) (l : list A) : list A :=
  match l with
  | [] => [x]
  | y :: l' => if key x <=? key y then x :: l else y :: insert_by key x l'
  end.

Fixpoint sort_by {A} (key : A -> Z) (l : list A) : list A :=
  match l with
  | [] => []
  | x :: l' => insert_by key x (sort_by key l')
  end.

Definition list_sort (positional : list (Obj * Z -> Z))
    (key : option (Obj * Z -> Z)) (l : list (Obj * Z)) : Exn + list (Obj * Z) :=
  match positional with
  | _ :: _ => inl TypeError
  | [] =>
      match key with
      | Some k => inr (sort_by k l)
      | None => match l with _ :: _ :: _ => inl TypeError | _ => inr l end
      end
  end.

(** [l[:k]], with Python's reading of a negative bound. *)
Definition slice_to {A} (k : Z) (l : list A) : list A :=
  if 0 <=? k then firstn (Z.to_nat k) l
  else firstn (Z.to_nat (Z.of_nat (length l) + k)) l.

(** [random.random()]: a double [k / 2^53] with [0 <= k < 2^53], so a
    value of [0.0 <= x < 1.0]; [0.0] can come out. *)
Definition two_53 : N := 9007199254740992%N.

Definition unit_draw (raw : N) : Q :=
  Z.of_N (raw mod two_53) # 9007199254740992.

Definition random_random : M Q :=
  fun st =>
    let w := world st in
    (Ok (unit_draw (tape w (cursor w))),
     {| self := self st; world := advance w |}).

(** The position below [n] that one raw draw selects. *)
Definition position_below (n : nat) (raw : N) : nat :=
  N.to_nat (raw mod N.of_nat n).

Definition randbelow (n : nat) : M nat :=
  fun st =>
    let w := world st in
    (Ok (position_below n (tape w (cursor w))),
     {| self := self st; world := advance w |}).

(** [random.choice(seq)]: [IndexError] on an empty sequence, otherwise
    the element at a position drawn below its length. *)
Definition random_choice (seq : list Obj) : M Obj :=
  match seq with
  | [] => raise IndexError
  | x :: _ => i <- randbelow (length seq) ;; ret (nth i seq x)
  end.

(** [random.sample(population, 2)]: [ValueError] when the population has
    fewer than two elements; otherwise two elements at distinct positions,
    chosen as CPython does.

    On a list of at most 21 elements the first position is drawn below
    [n], the last element then takes the vacated place and the second
    position is drawn below [n - 1].

    On a longer list both positions are drawn below [n], the second one
    again and again until it differs from the first.  A tape can repeat
    the first position for ever, which [random.sample] answers by not
    returning; the model follows the loop for [redraw_limit] draws and
    then lets one more draw choose among the other positions. *)
Definition second_position (n i j : nat) : nat :=
  if Nat.eqb j i then Nat.pred n else j.

Definition pool_limit : nat := 21.

Definition redraw_limit : nat := 64.

Fixpoint redraw (fuel n i : nat) : M nat :=
  match fuel with
  | O => j <- randbelow (Nat.pred n) ;; ret (second_position n i j)
  | S fuel' =>
      j <- randbelow n ;;
      if Nat.eqb j i then redraw fuel' n i else ret j
  end.

Definition sample_positions (n : nat) : M (nat * nat) :=
  i <- randbelow n ;;
  if (n <=? pool_limit)%nat
  then j <- randbelow (Nat.pred n) ;; ret (i, second_position n i j)
  else j <- redraw redraw_limit n i ;; ret (i, j).

Definition random_sample_2 (population : list Obj) : M (Obj * Obj) :=
  match population with
  | [] | [_] => raise ValueError
  | x :: _ =>
      ij <- sample_positions (length population) ;;
      ret (nth (fst ij) population x, nth (snd ij) population x)
  end.

(** ** Calls on the strategy objects

    The call is recorded, then the strategy answers or raises; what it
    raises travels on as it is. *)

Definition call_evaluate (gene : Obj) : M Z :=
  fun st =>
    let w := world st in
    let st' := {| self := self st; world := log (EvEvaluate gene) w |} in
    match evaluate (evaluator (self st)) (trace w) gene with
    | inl e => (Raise e, st')
    | inr f => (Ok f, st')
    end.

Definition call_mutate (gene : Obj) : M Obj :=
  fun st =>
    let w := world st in
    let st' := {| self := self st; world := log (EvMutate gene) w |} in
    match mutate (mutator (self st)) (trace w) gene with
    | inl e => (Raise e, st')
    | inr g => (Ok g, st')
    end.

Definition call_breed (gene_1 gene_2 : Obj) : M Obj :=
  fun st =>
    let w := world st in
    let st' := {| self := self st; world := log (EvBreed gene_1 gene_2) w |} in
    match breed (breeder (self st)) (trace w) gene_1 gene_2 with
    | inl e => (Raise e, st')
    | inr g => (Ok g, st')
    end.

(** ** class Population *)

(** [-1e99] (line 59): the exact value of that double. *)
Definition sentinel : Z :=
  - 999999999999999967336168804116691273849533185806555472917961779471295845921727862608739868455469056.

(** [init_genes] (lines 63-67). *)
Definition init_genes (initial_gene : Obj) : M unit :=
  p <- get_self ;;
  l <- mapM (fun _ => call_mutate initial_gene) (range (num_organisms p)) ;;
  modify_self (set_organisms l).

(** [__init__] (lines 34-61).  The object exists only when the body runs
    to its end.  [best_gene], [best_fitness] and [mutate_probability] are
    assigned after [init_genes], which reads none of them. *)
Definition Population_init (num_organisms : Z) (initial_gene : Obj)
    (evaluator : Evaluator) (mutator : Mutator) (breeder : Breeder)
    (selection_criteria : string) (top_k : Z)
    (w : World) : Outcome Population * World :=
  if top_k <=? num_organisms then
    let this :=
      {| num_organisms := num_organisms; evaluator := evaluator;
         mutator := mutator; breeder := breeder;
         selection_criteria := selection_criteria; topk := top_k;
         organisms := [];
         best_gene := None; best_fitness := sentinel;
         mutate_probability := 1 # 2 |} in
    match init_genes initial_gene {| self := this; world := w |} with
    | (Ok _, st) =>
        (Ok (set_mutate_probability (1 # 2) (set_best None sentinel (self st))),
         world st)
    | (Raise e, st) => (Raise e, world st)
    end
  else (Raise AssertionError, w).

(** [self.top_k] (line 104): [__init__] stores the count as [topk]
    (line 53) and nothing sets an attribute of that other name. *)
Definition attr_top_k : M Z := raise AttributeError.

(** [kill_the_weak] (lines 102-104).  The key function is handed to
    [sort] as a positional argument. *)
Definition kill_the_weak (genes : list (Obj * Z)) : M (list Obj) :=
  sorted <- lift (list_sort [fun x => snd x] None genes) ;;
  top_k <- attr_top_k ;;
  ret (map (fun x => Tuple (fst x) (snd x)) (slice_to top_k sorted)).

(** The two branches of a turn of the refill loop (lines 93-94 and
    96-97): the list a branch is given is the list it draws from and
    appends to. *)
Definition mutate_branch (surviving_genes : list Obj) : M (list Obj) :=
  random_gene <- random_choice surviving_genes ;;
  child <- call_mutate random_gene ;;
  ret (surviving_genes ++ [child]).

Definition breed_branch (surviving_genes : list Obj) : M (list Obj) :=
  parents <- random_sample_2 surviving_genes ;;
  child <- call_breed (fst parents) (snd parents) ;;
  ret (surviving_genes ++ [child]).

(** One turn of the refill loop (lines 92-97). *)
Definition refill_step (surviving_genes : list Obj) : M (list Obj) :=
  x <- random_random ;;
  p <- get_self ;;
  if Qle_bool x (mutate_probability p)
  then mutate_branch surviving_genes
  else breed_branch surviving_genes.

(** The refill loop (line 91). *)
Fixpoint refill (turns : list nat) (surviving_genes : list Obj) : M (list Obj) :=
  match turns with
  | [] => ret surviving_genes
  | _ :: turns' =>
      grown <- refill_step surviving_genes ;;
      refill turns' grown
  end.

(** The evaluation pass (lines 76-78). *)
Definition evaluate_all (genes : list Obj) : M (list (Obj * Z)) :=
  mapM (fun gene => f <- call_evaluate gene ;; ret (gene, f)) genes.

(** The body of the generation loop (lines 74-98). *)
Definition generation (generation_num : nat) : M unit :=
  print generation_num ;;;
  p <- get_self ;;
  gene_fitnesses <- evaluate_all (organisms p) ;;
  best <- lift (py_max gene_fitnesses snd) ;;
  p <- get_self ;;
  (if snd best >? best_fitness p
   then modify_self (set_best (Some (fst best)) (snd best))
   else ret tt) ;;;
  surviving_genes <- kill_the_weak gene_fitnesses ;;
  p <- get_self ;;
  surviving_genes <-
    refill (range (num_organisms p - topk p)) surviving_genes ;;
  modify_self (set_organisms surviving_genes).

Fixpoint for_each {A} (body : A -> M unit) (it : list A) : M unit :=
  match it with
  | [] => ret tt
  | a :: it' => body a ;;; for_each body it'
  end.

(** [run_generations] (lines 69-100). *)
Definition run_generations (num_generations : Z) (show_progress : bool)
    : M (list Obj) :=
  let generation_iterator :=
    if show_progress then tqdm (range num_generations)
    else range num_generations in
  for_each generation generation_iterator ;;;
  p <- get_self ;;
  ret (organisms p).

(** A caller that calls [run_generations] several times on the same
    object and carries on after an exception. *)
Fixpoint run_calls (calls : list (Z * bool)) (st : State) : State :=
  match calls with
  | [] => st
  | (n, sp) :: calls' => run_calls calls' (snd (run_generations n sp st))
  end.

(** ** The loop on a subclass

    [self.kill_the_weak] (line 86) is looked up on the object, so a
    subclass that defines [kill_the_weak] has its own method called
    there.  [generation_with select] is the body of the loop with
    [select] as the method found, and [generation] is
    [generation_with kill_the_weak]. *)
Definition generation_with (select : list (Obj * Z) -> M (list Obj))
    (generation_num : nat) : M unit :=
  print generation_num ;;;
  p <- get_self ;;
  gene_fitnesses <- evaluate_all (organisms p) ;;
  best <- lift (py_max gene_fitnesses snd) ;;
  p <- get_self ;;
  (if snd best >? best_fitness p
   then modify_self (set_best (Some (fst best)) (snd best))
   else ret tt) ;;;
  surviving_genes <- select gene_fitnesses ;;
  p <- get_self ;;
  surviving_genes <-
    refill (range (num_organisms p - topk p)) surviving_genes ;;
  modify_self (set_organisms surviving_genes).

Definition run_generations_with (select : list (Obj * Z) -> M (list Obj))
    (num_generations : Z) (show_progress : bool) : M (list Obj) :=
  let generation_iterator :=
    if show_progress then tqdm (range num_generations)
    else range num_generations in
  for_each (generation_with select) generation_iterator ;;;
  p <- get_self ;;
  ret (organisms p).

(** A selection method that, given at least [topk] scored genes, returns
    [topk] survivors when it returns, and leaves the two counts of the
    object as they are. *)
Definition returns_topk (select : list (Obj * Z) -> M (list Obj)) : Prop :=
  forall gf st l st',
    0 <= topk (self st) <= Z.of_nat (length gf) ->
    select gf st = (Ok l, st') ->
    Z.of_nat (length l) = topk (self st)
    /\ num_organisms (self st') = num_organisms (self st)
    /\ topk (self st') = topk (self st).

(** A subclass method that keeps the [topk] highest scores. *)
Definition keep_top_k (genes : list (Obj * Z)) : M (list Obj) :=
  p <- get_self ;;
  ret (map fst (firstn (Z.to_nat (topk p))
                  (sort_by (fun x => - snd x) genes))).

(** ** Reading a run

    The events a run added to the trace, and whether the call an event
    records raised, given everything that came before it. *)
Definition new_events (st st' : State) : list Event :=
  skipn (length (trace (world st))) (trace (world st')).

Definition call_raised (p : Population) (history : list Event) (ev : Event)
    : option Exn :=
  match ev with
  | EvPrint _ => None
  | EvEvaluate g =>
      match evaluate (evaluator p) history g with
      | inl e => Some e | inr _ => None
      end
  | EvMutate g =>
      match mutate (mutator p) history g with
      | inl e => Some e | inr _ => None
      end
  | EvBreed a b =>
      match breed (breeder p) history a b with
      | inl e => Some e | inr _ => None
      end
  end.

(** The stored best pair either stays or is replaced by a strictly
    higher score. *)
Definition best_kept_or_raised (p p' : Population) : Prop :=
  (best_gene p' = best_gene p /\ best_fitness p' = best_fitness p)
  \/ best_fitness p < best_fitness p'.

(** What line 82-84 does with the best pair of a generation. *)
Definition record_best (best : Obj * Z) (st : State) : State :=
  if snd best >? best_fitness (self st)
  then {| self := set_best (Some (fst best)) (snd best) (self st);
          world := world st |}
  else st.

(** ** Ways a method can treat the state

    [keeps R m]: whatever [m] returns or raises, the states before and
    after it are related by [R]. *)
Definition keeps (R : State -> State -> Prop) {A} (m : M A) : Prop :=
  forall st, R st (snd (m st)).

Definition same_self (st st' : State) : Prop := self st' = self st.

Definition same_tape (st st' : State) : Prop :=
  tape (world st') = tape (world st).

Definition best_order (st st' : State) : Prop :=
  best_kept_or_raised (self st) (self st').

Definition only_events (P : Event -> bool) (st st' : State) : Prop :=
  exists new,
    trace (world st') = trace (world st) ++ new /\ forallb P new = true.

(** The object and the tape stay, and every new event satisfies [P]. *)
Definition refill_frame (P : Event -> bool) (st st' : State) : Prop :=
  same_self st st' /\ same_tape st st' /\ only_events P st st'.

Definition same_strategies (p p' : Population) : Prop :=
  evaluator p' = evaluator p /\ mutator p' = mutator p
  /\ breeder p' = breeder p.

(** [stops_at_failure m]: in any run of [m], a strategy call that raised
    is the last thing that happened, and what it raised is what [m]
    raises. *)
Definition stops_at_failure {A} (m : M A) : Prop :=
  forall st r st', m st = (r, st') ->
    same_strategies (self st) (self st') /\
    exists new,
      trace (world st') = trace (world st) ++ new /\
      forall pre ev post e,
        new = pre ++ ev :: post ->
        call_raised (self st) (trace (world st) ++ pre) ev = Some e ->
        r = Raise e /\ post = [].

(** The state once one raw draw has been read. *)
Definition tick (st : State) : State :=
  {| self := self st; world := advance (world st) |}.

(** The raw draw a state is about to read. *)
Definition next_raw (st : State) : N := tape (world st) (cursor (world st)).

(** [drawn_from current ev]: the call [ev] took its argument from a
    position of [current], its two arguments from two different
    positions. *)
Definition drawn_from (current : list Obj) (ev : Event) : Prop :=
  match ev with
  | EvMutate g => exists i, nth_error current i = Some g
  | EvBreed a b =>
      exists i j, i <> j /\ nth_error current i = Some a
                  /\ nth_error current j = Some b
  | _ => False
  end.

(** The calls of successive turns, each drawing from the list as the
    turns before it left it: the list the loop started with followed by
    the children appended so far. *)
Fixpoint turns_draw_from (current offspring : list Obj) (events : list Event)
    : Prop :=
  match events, offspring with
  | [], [] => True
  | ev :: events', child :: offspring' =>
      drawn_from current ev
      /\ turns_draw_from (current ++ [child]) offspring' events'
  | _, _ => False
  end.

(** ** Sample strategies *)

Definition length_evaluator : Evaluator :=
  {| evaluate := fun _ g =>
       match g with
       | Gene s => inr (Z.of_nat (String.length s))
       | Tuple _ _ => inl (Raised "not a gene")
       end |}.

Definition append_mutator : Mutator :=
  {| mutate := fun _ g =>
       match g with
       | Gene s => inr (Gene (s ++ "m"))
       | Tuple _ _ => inl (Raised "not a gene")
       end |}.

Definition concat_breeder : Breeder :=
  {| breed := fun _ a b =>
       match a, b with
       | Gene s, Gene t => inr (Gene (s ++ t))
       | _, _ => inl (Raised "not a gene")
       end |}.

Definition failing_evaluator : Evaluator :=
  {| evaluate := fun _ g =>
       match g with
       | Gene "Am" => inl (Raised "evaluation failed")
       | Gene s => inr (Z.of_nat (String.length s))
       | Tuple _ _ => inl (Raised "not a gene")
       end |}.

Definition failing_breeder : Breeder :=
  {| breed := fun _ _ _ => inl (Raised "breeding failed") |}.

Definition constant_tape (raw : N) : nat -> N := fun _ => raw.

Definition tape_of (l : list N) : nat -> N := fun i => nth i l 0%N.

Definition quiet (t : nat -> N) : World :=
  {| trace := []; tape := t; cursor := 0 |}.

Definition sample_population (N K : Z) (genes : list Obj) (p : Q) : Population :=
  {| num_organisms := N; evaluator := length_evaluator;
     mutator := append_mutator; breeder := concat_breeder;
     selection_criteria := "topk"; topk := K;
     organisms := genes;
     best_gene := None; best_fitness := sentinel;
     mutate_probability := p |}.


(** A state for the refill loop: [genes] are not read by it. *)
Definition refill_state (p : Q) (t : nat -> N) : State :=
  {| self := sample_population 4 2 [] p; world := quiet t |}.

Definition failing_run_state : State :=
  {| self :=
       {| num_organisms := 3; evaluator := failing_evaluator;
          mutator := append_mutator; breeder := concat_breeder;
          selection_criteria := "topk"; topk := 2;
          organisms := [Gene "B"; Gene "Am"; Gene "Cccc"];
          best_gene := Some (Gene "Z"); best_fitness := 1;
          mutate_probability := 1 # 2 |};
     world := quiet (constant_tape 0) |}.

(** A refill in which the breeder fails: the first draw mutates, the
    second breeds. *)
Definition failing_refill_state : State :=
  {| self :=
       {| num_organisms := 5; evaluator := length_evaluator;
          mutator := append_mutator; breeder := failing_breeder;
          selection_criteria := "topk"; topk := 2;
          organisms := [Gene "A"; Gene "B"];
          best_gene := Some (Gene "B"); best_fitness := 1;
          mutate_probability := 1 # 2 |};
     world := quiet (tape_of [0; 0; 9007199254740991; 1; 1]%N) |}.

(** An object about to be initialised again. *)
Definition initial_state_example : State :=
  {| self := sample_population 3 2 [Gene "old"] (1 # 2);
     world := quiet (constant_tape 0) |}.

(** [selection_criteria] replaced, everything else as it is. *)
Definition set_selection_criteria (sc : string) (p : Population) : Population :=
  {| num_organisms := num_organisms p; evaluator := evaluator p;
     mutator := mutator p; breeder := breeder p;
     selection_criteria := sc; topk := topk p;
     organisms := organisms p;
     best_gene := best_gene p; best_fitness := best_fitness p;
     mutate_probability := mutate_probability p |}.

Definition with_selection_criteria (sc : string) (st : State) : State :=
  {| self := set_selection_criteria sc (self st); world := world st |}.

(** An evaluator whose answer depends on the gene alone. *)
Definition pure_evaluator (ev : Evaluator) : Prop :=
  forall h h' g, evaluate ev h g = evaluate ev h' g.

(** The random source is where it was. *)
Definition same_random (st st' : State) : Prop :=
  tape (world st') = tape (world st)
  /\ cursor (world st') = cursor (world st).

(** A mutator that answers twice and raises at its third call, and an
    object about to be initialised with it. *)
Definition third_call_fails : Mutator :=
  {| mutate := fun h g =>
       match h, g with
       | [_; _], _ => inl (Raised "mutation failed")
       | _, Gene s => inr (Gene (s ++ "m"))
       | _, Tuple _ _ => inl (Raised "not a gene")
       end |}.

Definition failing_init_state : State :=
  {| self :=
       {| num_organisms := 3; evaluator := length_evaluator;
          mutator := third_call_fails; breeder := concat_breeder;
          selection_criteria := "topk"; topk := 2;
          organisms := [Gene "old"];
          best_gene := None; best_fitness := sentinel;
          mutate_probability := 1 # 2 |};
     world := quiet (constant_tape 0) |}.

(** The state once [k] raw draws have been read. *)
Fixpoint ticks (k : nat) (st : State) : State :=
  match k with
  | O => st
  | S k' => ticks k' (tick st)
  end.

(** A refill whose first turn mutates and whose second turn breeds. *)
Definition breeding_refill_state : State :=
  refill_state (1 # 2) (tape_of [0; 0; 9007199254740991; 1; 1]%N).

(** A tape for a list of 22: position 5 is drawn, drawn twice again,
    then position 7. *)
Definition colliding_state : State :=
  refill_state 0 (tape_of [5; 5; 27; 7]%N).

(** * Properties *)

(** ** Lists and traces *)

Lemma skipn_length_app {A} (l new : list A) : skipn (length l) (l ++ new) = new.
Proof. induction l as [|x l IH]; simpl; auto. Qed.

Lemma new_events_app (st st' : State) (new : list Event) :
  trace (world st') = trace (world st) ++ new -> new_events st st' = new.
Proof. intros H. unfold new_events. rewrite H. apply skipn_length_app. Qed.

Lemma new_events_same (st st' : State) :
  trace (world st') = trace (world st) -> new_events st st' = [].
Proof. intros H. apply new_events_app. now rewrite app_nil_r. Qed.

(** Where an element of [l1 ++ l2] sits. *)
Lemma app_split_at {A} (l1 l2 pre post : list A) (x : A) :
  l1 ++ l2 = pre ++ x :: post ->
  (exists post1, l1 = pre ++ x :: post1 /\ post = post1 ++ l2)
  \/ (exists pre2, pre = l1 ++ pre2 /\ l2 = pre2 ++ x :: post).
Proof.
  revert pre. induction l1 as [|a l1 IH]; intros pre H; simpl in H.
  - right. exists pre. split; auto.
  - destruct pre as [|b pre]; simpl in H.
    + inversion H; subst. left. exists l1. split; auto.
    + inversion H; subst.
      destruct (IH pre H2) as [[post1 [E1 E2]] | [pre2 [E1 E2]]].
      * left. exists post1. subst. split; auto.
      * right. exists pre2. subst. split; auto.
Qed.

Lemma range_pos (n : positive) :
  exists k, range (Z.pos n) = 0%nat :: seq 1 k.
Proof.
  unfold range. destruct (Pos2Nat.is_succ n) as [k Hk].
  rewrite Z2Nat.inj_pos, Hk. exists k. reflexivity.
Qed.

Lemma range_nonpos (n : Z) : n <= 0 -> range n = [].
Proof.
  intros H. unfold range. destruct n; try reflexivity. lia.
Qed.

(** ** Survivor selection *)

(** [kill_the_weak] raises on every input, before it sorts or slices. *)
Lemma kill_the_weak_raises (genes : list (Obj * Z)) (st : State) :
  kill_the_weak genes st = (Raise TypeError, st).
Proof. reflexivity. Qed.

(** ** One generation, step by step *)

Lemma generation_unfold (g : nat) (st : State) :
  generation g st =
  match evaluate_all (organisms (self st)) (snd (print g st)) with
  | (Raise e, st2) => (Raise e, st2)
  | (Ok gene_fitnesses, st2) =>
      match py_max gene_fitnesses snd with
      | inl e => (Raise e, st2)
      | inr best => (Raise TypeError, record_best best st2)
      end
  end.
Proof.
  unfold generation, bind, print, modify_world, get_self, record_best. simpl.
  destruct (evaluate_all _ _) as [[gf | e] st2]; auto.
  destruct (py_max gf snd) as [e | best]; simpl; auto.
  destruct (snd best >? best_fitness (self st2)); reflexivity.
Qed.

Lemma generation_raises (g : nat) (st : State) :
  exists e, fst (generation g st) = Raise e.
Proof.
  rewrite generation_unfold.
  destruct (evaluate_all _ _) as [[gf | e] st2]; simpl; eauto.
  destruct (py_max gf snd); simpl; eauto.
Qed.

Lemma run_generations_pos (n : positive) (sp : bool) (st : State) :
  exists e, run_generations (Z.pos n) sp st = (Raise e, snd (generation 0 st)).
Proof.
  destruct (generation_raises 0 st) as [e He]. exists e.
  unfold run_generations, tqdm.
  destruct (range_pos n) as [k Hk].
  assert (E : (if sp then range (Z.pos n) else range (Z.pos n))
              = 0%nat :: seq 1 k) by (destruct sp; exact Hk).
  rewrite E. unfold bind. simpl. unfold bind.
  destruct (generation 0 st) as [[u | e'] st1]; simpl in *.
  - discriminate.
  - congruence.
Qed.

Lemma run_generations_nonpos (n : Z) (sp : bool) (st : State) :
  n <= 0 -> run_generations n sp st = (Ok (organisms (self st)), st).
Proof.
  intros H. unfold run_generations, tqdm. rewrite (range_nonpos n H).
  destruct sp; reflexivity.
Qed.

(** ** Relations kept by every step *)

Section Keeps.
Variable R : State -> State -> Prop.
Hypothesis R_refl : forall st, R st st.
Hypothesis R_trans : forall a b c, R a b -> R b c -> R a c.

Lemma keeps_ret {A} (a : A) : keeps R (ret a).
Proof. intros st. apply R_refl. Qed.

Lemma keeps_raise {A} (e : Exn) : keeps R (@raise A e).
Proof. intros st. apply R_refl. Qed.

Lemma keeps_lift {A} (r : Exn + A) : keeps R (lift r).
Proof. destruct r; [apply keeps_raise | apply keeps_ret]. Qed.

Lemma keeps_get_self : keeps R get_self.
Proof. intros st. apply R_refl. Qed.

Lemma keeps_bind {A B} (m : M A) (k : A -> M B) :
  keeps R m -> (forall a, keeps R (k a)) -> keeps R (bind m k).
Proof.
  intros Hm Hk st. unfold bind.
  specialize (Hm st). destruct (m st) as [[a | e] st1]; simpl in *; auto.
  eapply R_trans; [exact Hm | apply Hk].
Qed.

Lemma keeps_mapM {A B} (f : A -> M B) (l : list A) :
  (forall a, keeps R (f a)) -> keeps R (mapM f l).
Proof.
  intros Hf. induction l as [|a l IH]; simpl.
  - apply keeps_ret.
  - apply keeps_bind; [apply Hf |]. intros b.
    apply keeps_bind; [exact IH |]. intros bs. apply keeps_ret.
Qed.

Lemma keeps_for_each {A} (body : A -> M unit) (it : list A) :
  (forall a, keeps R (body a)) -> keeps R (for_each body it).
Proof.
  intros Hb. induction it as [|a it IH]; simpl.
  - apply keeps_ret.
  - apply keeps_bind; [apply Hb | intros _; exact IH].
Qed.

Lemma keeps_run_calls (calls : list (Z * bool)) :
  (forall n sp, keeps R (run_generations n sp)) ->
  forall st, R st (run_calls calls st).
Proof.
  intros H. induction calls as [|[n sp] calls IH]; intros st; simpl.
  - apply R_refl.
  - eapply R_trans; [apply H | apply IH].
Qed.
End Keeps.

Lemma same_self_refl (st : State) : same_self st st.
Proof. reflexivity. Qed.

Lemma same_self_trans (a b c : State) :
  same_self a b -> same_self b c -> same_self a c.
Proof. unfold same_self. congruence. Qed.

Lemma same_tape_refl (st : State) : same_tape st st.
Proof. reflexivity. Qed.

Lemma same_tape_trans (a b c : State) :
  same_tape a b -> same_tape b c -> same_tape a c.
Proof. unfold same_tape. congruence. Qed.

Lemma best_order_refl (st : State) : best_order st st.
Proof. left. split; reflexivity. Qed.

Lemma best_order_trans (a b c : State) :
  best_order a b -> best_order b c -> best_order a c.
Proof.
  unfold best_order, best_kept_or_raised.
  intros [[G1 F1] | L1] [[G2 F2] | L2].
  - left. split; congruence.
  - right. lia.
  - right. lia.
  - right. lia.
Qed.

Lemma only_events_refl (P : Event -> bool) (st : State) : only_events P st st.
Proof. exists []. split; [now rewrite app_nil_r | reflexivity]. Qed.

Lemma only_events_trans (P : Event -> bool) (a b c : State) :
  only_events P a b -> only_events P b c -> only_events P a c.
Proof.
  intros [n1 [E1 F1]] [n2 [E2 F2]]. exists (n1 ++ n2). split.
  - rewrite E2, E1. now rewrite app_assoc.
  - rewrite forallb_app, F1, F2. reflexivity.
Qed.


(** The strategy calls leave the object alone and record one event. *)
Lemma call_evaluate_state (g : Obj) (st : State) :
  snd (call_evaluate g st)
  = {| self := self st; world := log (EvEvaluate g) (world st) |}.
Proof. unfold call_evaluate. destruct (evaluate _ _ _); reflexivity. Qed.

Lemma call_mutate_state (g : Obj) (st : State) :
  snd (call_mutate g st)
  = {| self := self st; world := log (EvMutate g) (world st) |}.
Proof. unfold call_mutate. destruct (mutate _ _ _); reflexivity. Qed.

Lemma call_breed_state (a b : Obj) (st : State) :
  snd (call_breed a b st)
  = {| self := self st; world := log (EvBreed a b) (world st) |}.
Proof. unfold call_breed. destruct (breed _ _ _ _); reflexivity. Qed.

Lemma random_choice_state (l : list Obj) (st : State) :
  self (snd (random_choice l st)) = self st
  /\ trace (world (snd (random_choice l st))) = trace (world st).
Proof. destruct l; simpl; auto. Qed.

(** Drawing positions reads the tape and does nothing else: a relation
    that holds across one draw holds across the drawing of a pair. *)
Lemma keeps_sample_positions (R : State -> State -> Prop) (n : nat) :
  (forall st, R st st) -> (forall st, R st (tick st)) ->
  (forall a b c, R a b -> R b c -> R a c) ->
  keeps R (sample_positions n).
Proof.
  intros Hr Ht Htr.
  assert (Hb : forall m, keeps R (randbelow m)) by (intros m st; apply Ht).
  assert (Hd : forall fuel m i, keeps R (redraw fuel m i)).
  { induction fuel as [|fuel IH]; intros m i; simpl.
    - apply (keeps_bind _ Htr); [apply Hb |]. intros j. apply keeps_ret, Hr.
    - apply (keeps_bind _ Htr); [apply Hb |]. intros j.
      destruct (Nat.eqb j i); [apply IH | apply keeps_ret, Hr]. }
  apply (keeps_bind _ Htr); [apply Hb |]. intros i.
  destruct (n <=? pool_limit)%nat.
  - apply (keeps_bind _ Htr); [apply Hb |]. intros j. apply keeps_ret, Hr.
  - apply (keeps_bind _ Htr); [apply Hd |]. intros j. apply keeps_ret, Hr.
Qed.

Lemma sample_positions_state (n : nat) (st : State) :
  self (snd (sample_positions n st)) = self st
  /\ trace (world (snd (sample_positions n st))) = trace (world st).
Proof.
  apply (keeps_sample_positions
           (fun a b => self b = self a
                       /\ trace (world b) = trace (world a))).
  - intros a. split; reflexivity.
  - intros a. split; reflexivity.
  - intros a b c [S1 T1] [S2 T2]. split; congruence.
Qed.

Lemma random_sample_2_state (l : list Obj) (st : State) :
  self (snd (random_sample_2 l st)) = self st
  /\ trace (world (snd (random_sample_2 l st))) = trace (world st).
Proof.
  destruct l as [|x [|y l]]; try (split; reflexivity).
  pose proof (sample_positions_state (length (x :: y :: l)) st) as [S T].
  unfold random_sample_2, bind.
  destruct (sample_positions _ st) as [[ij | e] st1]; simpl in *; auto.
Qed.

(** ** The evaluation pass *)

Lemma evaluate_all_self (genes : list Obj) : keeps same_self (evaluate_all genes).
Proof.
  unfold evaluate_all.
  apply (keeps_mapM _ same_self_refl same_self_trans). intros g.
  apply (keeps_bind _ same_self_trans).
  - intros st. rewrite call_evaluate_state. reflexivity.
  - intros f. apply keeps_ret, same_self_refl.
Qed.

Lemma evaluate_all_tape (genes : list Obj) : keeps same_tape (evaluate_all genes).
Proof.
  unfold evaluate_all.
  apply (keeps_mapM _ same_tape_refl same_tape_trans). intros g.
  apply (keeps_bind _ same_tape_trans).
  - intros st. rewrite call_evaluate_state. reflexivity.
  - intros f. apply keeps_ret, same_tape_refl.
Qed.

Lemma evaluate_all_events (genes : list Obj) :
  keeps (only_events is_evaluate) (evaluate_all genes).
Proof.
  unfold evaluate_all.
  apply (keeps_mapM _ (only_events_refl _) (only_events_trans _)). intros g.
  apply (keeps_bind _ (only_events_trans _)).
  - intros st. rewrite call_evaluate_state. exists [EvEvaluate g]. auto.
  - intros f. apply keeps_ret, (only_events_refl _).
Qed.

(** ** What a generation does to the best pair *)

Lemma generation_best (g : nat) (st : State) :
  self (snd (generation g st)) = self st
  \/ exists gene_fitnesses st2 best,
       evaluate_all (organisms (self st)) (snd (print g st))
         = (Ok gene_fitnesses, st2)
       /\ py_max gene_fitnesses snd = inr best
       /\ best_fitness (self st) < snd best
       /\ self (snd (generation g st))
          = set_best (Some (fst best)) (snd best) (self st).
Proof.
  rewrite generation_unfold.
  pose proof (evaluate_all_self (organisms (self st)) (snd (print g st))) as Hs.
  unfold same_self in Hs. simpl in Hs.
  destruct (evaluate_all _ _) as [[gf | e] st2] eqn:E; simpl in *; auto.
  destruct (py_max gf snd) as [e | best] eqn:Em; simpl; auto.
  unfold record_best. rewrite Hs.
  destruct (snd best >? best_fitness (self st)) eqn:Hgt; simpl; auto.
  right. exists gf, st2, best.
  apply Z.gtb_lt in Hgt. repeat split; auto; try lia.
Qed.

Lemma generation_best_order (g : nat) : keeps best_order (generation g).
Proof.
  intros st. unfold best_order, best_kept_or_raised.
  destruct (generation_best g st) as [H | [gf [st2 [best [_ [_ [Hlt H]]]]]]];
    rewrite H.
  - left. auto.
  - right. simpl. exact Hlt.
Qed.

Lemma generation_organisms (g : nat) (st : State) :
  organisms (self (snd (generation g st))) = organisms (self st).
Proof.
  destruct (generation_best g st) as [H | [gf [st2 [best [_ [_ [_ H]]]]]]];
    rewrite H; reflexivity.
Qed.

Lemma generation_events (g : nat) :
  keeps (only_events (fun ev => negb (is_mutate ev) && negb (is_breed ev)))
        (generation g).
Proof.
  intros st. rewrite generation_unfold.
  destruct (evaluate_all_events (organisms (self st)) (snd (print g st)))
    as [new [Hnew Hall]].
  assert (W : forall b st2, world (record_best b st2) = world st2).
  { intros b st2. unfold record_best. destruct (_ >? _); reflexivity. }
  assert (G : only_events (fun ev => negb (is_mutate ev) && negb (is_breed ev))
                st (snd (evaluate_all (organisms (self st)) (snd (print g st))))).
  { exists (EvPrint g :: new). split.
    - rewrite Hnew. simpl. now rewrite <- app_assoc.
    - simpl. rewrite forallb_forall in *. intros ev Hin.
      specialize (Hall ev Hin). destruct ev; simpl in *; auto; discriminate. }
  destruct (evaluate_all _ _) as [[gf | e] st2]; simpl in *; auto.
  destruct (py_max gf snd); simpl; auto.
  destruct G as [n [E F]]. exists n. rewrite W. auto.
Qed.

Lemma run_generations_best_order (n : Z) (sp : bool) :
  keeps best_order (run_generations n sp).
Proof.
  unfold run_generations.
  apply (keeps_bind _ best_order_trans).
  - apply (keeps_for_each _ best_order_refl best_order_trans).
    apply generation_best_order.
  - intros _. apply (keeps_bind _ best_order_trans).
    + apply keeps_get_self, best_order_refl.
    + intros p. apply keeps_ret, best_order_refl.
Qed.

(** ** A failing strategy call ends the run *)

Lemma same_strategies_refl (p : Population) : same_strategies p p.
Proof. repeat split. Qed.

Lemma same_strategies_trans (p q r : Population) :
  same_strategies p q -> same_strategies q r -> same_strategies p r.
Proof. unfold same_strategies. intuition congruence. Qed.

Lemma call_raised_same (p p' : Population) (h : list Event) (ev : Event) :
  same_strategies p p' -> call_raised p' h ev = call_raised p h ev.
Proof.
  intros [E1 [E2 E3]]. destruct ev; simpl; rewrite ?E1, ?E2, ?E3; reflexivity.
Qed.

(** A step that records nothing. *)
Lemma stops_silent {A} (m : M A) :
  (forall st, same_strategies (self st) (self (snd (m st)))
              /\ trace (world (snd (m st))) = trace (world st)) ->
  stops_at_failure m.
Proof.
  intros H st r st' Hm. destruct (H st) as [S T]. rewrite Hm in S, T.
  simpl in S, T. split; auto. exists []. split.
  - now rewrite app_nil_r.
  - intros pre ev post e Hd. destruct pre; discriminate.
Qed.

Lemma stops_ret {A} (a : A) : stops_at_failure (ret a).
Proof. apply stops_silent. intros st. split; [apply same_strategies_refl | reflexivity]. Qed.

Lemma stops_raise {A} (e : Exn) : stops_at_failure (@raise A e).
Proof. apply stops_silent. intros st. split; [apply same_strategies_refl | reflexivity]. Qed.

Lemma stops_lift {A} (r : Exn + A) : stops_at_failure (lift r).
Proof. destruct r; [apply stops_raise | apply stops_ret]. Qed.

Lemma stops_get_self : stops_at_failure get_self.
Proof. apply stops_silent. intros st. split; [apply same_strategies_refl | reflexivity]. Qed.

Lemma stops_set_best (g : option Obj) (f : Z) :
  stops_at_failure (modify_self (set_best g f)).
Proof. apply stops_silent. intros st. split; [repeat split | reflexivity]. Qed.

Lemma stops_set_organisms (l : list Obj) :
  stops_at_failure (modify_self (set_organisms l)).
Proof. apply stops_silent. intros st. split; [repeat split | reflexivity]. Qed.

Lemma stops_random_random : stops_at_failure random_random.
Proof. apply stops_silent. intros st. split; [apply same_strategies_refl | reflexivity]. Qed.

Lemma stops_random_choice (l : list Obj) : stops_at_failure (random_choice l).
Proof.
  apply stops_silent. intros st. destruct (random_choice_state l st) as [S T].
  split; auto. rewrite S. apply same_strategies_refl.
Qed.

Lemma stops_random_sample_2 (l : list Obj) : stops_at_failure (random_sample_2 l).
Proof.
  apply stops_silent. intros st. destruct (random_sample_2_state l st) as [S T].
  split; auto. rewrite S. apply same_strategies_refl.
Qed.

Lemma stops_print (n : nat) : stops_at_failure (print n).
Proof.
  intros st r st' H. inversion H; subst; clear H. simpl.
  split; [apply same_strategies_refl |]. exists [EvPrint n]. split; auto.
  intros pre ev post e Hd Hc.
  destruct pre as [|x pre]; simpl in Hd.
  - inversion Hd; subst. discriminate.
  - inversion Hd. destruct pre; discriminate.
Qed.

(** A recorded call: one event, and the outcome is the strategy's. *)
Lemma stops_call {A} (m : M A) (ev : Event) :
  (forall st, snd (m st) = {| self := self st; world := log ev (world st) |}) ->
  (forall st e, call_raised (self st) (trace (world st)) ev = Some e ->
                fst (m st) = Raise e) ->
  stops_at_failure m.
Proof.
  intros Hs Hr st r st' H.
  pose proof (Hs st) as S. pose proof (Hr st) as F. rewrite H in S, F.
  simpl in S, F. subst st'. simpl.
  split; [apply same_strategies_refl |]. exists [ev]. split; auto.
  intros pre ev' post e Hd Hc.
  destruct pre as [|x pre]; simpl in Hd.
  - inversion Hd; subst. rewrite app_nil_r in Hc. auto.
  - inversion Hd. destruct pre; discriminate.
Qed.

Lemma stops_call_evaluate (g : Obj) : stops_at_failure (call_evaluate g).
Proof.
  apply (stops_call _ (EvEvaluate g)).
  - apply call_evaluate_state.
  - intros st e. unfold call_evaluate. simpl.
    destruct (evaluate _ _ _); simpl; congruence.
Qed.

Lemma stops_call_mutate (g : Obj) : stops_at_failure (call_mutate g).
Proof.
  apply (stops_call _ (EvMutate g)).
  - apply call_mutate_state.
  - intros st e. unfold call_mutate. simpl.
    destruct (mutate _ _ _); simpl; congruence.
Qed.

Lemma stops_call_breed (a b : Obj) : stops_at_failure (call_breed a b).
Proof.
  apply (stops_call _ (EvBreed a b)).
  - apply call_breed_state.
  - intros st e. unfold call_breed. simpl.
    destruct (breed _ _ _ _); simpl; congruence.
Qed.

Lemma stops_bind {A B} (m : M A) (k : A -> M B) :
  stops_at_failure m -> (forall a, stops_at_failure (k a)) ->
  stops_at_failure (bind m k).
Proof.
  intros Hm Hk st r st' H. unfold bind in H.
  destruct (m st) as [[a | e0] st1] eqn:Em.
  - destruct (Hm st (Ok a) st1 Em) as [S1 [new1 [T1 F1]]].
    destruct (Hk a st1 r st' H) as [S2 [new2 [T2 F2]]].
    split; [eapply same_strategies_trans; eauto |].
    exists (new1 ++ new2). split.
    + rewrite T2, T1. now rewrite app_assoc.
    + intros pre ev post e Hd Hc.
      destruct (app_split_at _ _ _ _ _ Hd) as [[post1 [E1 E2]] | [pre2 [E1 E2]]].
      * destruct (F1 pre ev post1 e E1 Hc) as [Habs _]. discriminate.
      * subst pre. apply (F2 pre2 ev post e E2).
        rewrite (call_raised_same _ _ _ _ S1), T1, <- app_assoc. exact Hc.
  - inversion H; subst.
    destruct (Hm st (Raise e0) st' Em) as [S1 [new1 [T1 F1]]].
    split; auto. exists new1. split; auto.
    intros pre ev post e Hd Hc.
    destruct (F1 pre ev post e Hd Hc) as [Hr Hp]. split; congruence.
Qed.

Lemma stops_mapM {A B} (f : A -> M B) (l : list A) :
  (forall a, stops_at_failure (f a)) -> stops_at_failure (mapM f l).
Proof.
  intros Hf. induction l as [|a l IH]; simpl.
  - apply stops_ret.
  - apply stops_bind; [apply Hf |]. intros b.
    apply stops_bind; [exact IH |]. intros bs. apply stops_ret.
Qed.

Lemma stops_for_each {A} (body : A -> M unit) (it : list A) :
  (forall a, stops_at_failure (body a)) -> stops_at_failure (for_each body it).
Proof.
  intros Hb. induction it as [|a it IH]; simpl.
  - apply stops_ret.
  - apply stops_bind; [apply Hb | intros _; exact IH].
Qed.

Lemma stops_evaluate_all (genes : list Obj) : stops_at_failure (evaluate_all genes).
Proof.
  apply stops_mapM. intros g.
  apply stops_bind; [apply stops_call_evaluate |]. intros f. apply stops_ret.
Qed.

Lemma stops_mutate_branch (sg : list Obj) : stops_at_failure (mutate_branch sg).
Proof.
  apply stops_bind; [apply stops_random_choice |]. intros g.
  apply stops_bind; [apply stops_call_mutate |]. intros c. apply stops_ret.
Qed.

Lemma stops_breed_branch (sg : list Obj) : stops_at_failure (breed_branch sg).
Proof.
  apply stops_bind; [apply stops_random_sample_2 |]. intros g.
  apply stops_bind; [apply stops_call_breed |]. intros c. apply stops_ret.
Qed.

Lemma stops_refill_step (sg : list Obj) : stops_at_failure (refill_step sg).
Proof.
  apply stops_bind; [apply stops_random_random |]. intros x.
  apply stops_bind; [apply stops_get_self |]. intros p.
  destruct (Qle_bool x (mutate_probability p));
    [apply stops_mutate_branch | apply stops_breed_branch].
Qed.

Lemma stops_refill (turns : list nat) :
  forall sg, stops_at_failure (refill turns sg).
Proof.
  induction turns as [|t turns IH]; intros sg; simpl.
  - apply stops_ret.
  - apply stops_bind; [apply stops_refill_step | intros l; apply IH].
Qed.

Lemma stops_init_genes (seed : Obj) : stops_at_failure (init_genes seed).
Proof.
  apply stops_bind; [apply stops_get_self |]. intros p.
  apply stops_bind.
  - apply stops_mapM. intros _. apply stops_call_mutate.
  - intros l. apply stops_set_organisms.
Qed.

Lemma stops_generation (g : nat) : stops_at_failure (generation g).
Proof.
  apply stops_bind; [apply stops_print |]. intros _.
  apply stops_bind; [apply stops_get_self |]. intros p.
  apply stops_bind; [apply stops_evaluate_all |]. intros gf.
  apply stops_bind; [apply stops_lift |]. intros best.
  apply stops_bind; [apply stops_get_self |]. intros p'.
  apply stops_bind.
  { destruct (snd best >? best_fitness p');
      [apply stops_set_best | apply stops_ret]. }
  intros _.
  apply stops_bind.
  { unfold kill_the_weak.
    apply stops_bind; [apply stops_lift |]. intros s.
    apply stops_bind; [apply stops_raise |]. intros k. apply stops_ret. }
  intros sg.
  apply stops_bind; [apply stops_get_self |]. intros p''.
  apply stops_bind; [apply stops_refill |]. intros l.
  apply stops_set_organisms.
Qed.

Lemma stops_run_generations (n : Z) (sp : bool) :
  stops_at_failure (run_generations n sp).
Proof.
  unfold run_generations.
  apply stops_bind.
  - apply stops_for_each. apply stops_generation.
  - intros _. apply stops_bind; [apply stops_get_self |].
    intros p. apply stops_ret.
Qed.

(** ** The refill loop *)

Lemma keeps_random_choice (R : State -> State -> Prop) (l : list Obj) :
  (forall st, R st st) -> (forall st, R st (tick st)) ->
  keeps R (random_choice l).
Proof. intros Hr Ht st. destruct l; simpl; [apply Hr | apply Ht]. Qed.

Lemma keeps_random_sample_2 (R : State -> State -> Prop) (l : list Obj) :
  (forall st, R st st) -> (forall st, R st (tick st)) ->
  (forall a b c, R a b -> R b c -> R a c) ->
  keeps R (random_sample_2 l).
Proof.
  intros Hr Ht Htr.
  destruct l as [|x [|y l]]; try (intros st; apply Hr).
  apply (keeps_bind _ Htr); [apply keeps_sample_positions; assumption |].
  intros ij. apply keeps_ret, Hr.
Qed.

(** A relation that ignores the cursor and lets the trace grow by calls
    of the two breeding strategies is kept by the whole loop. *)
Section KeepsRefill.
Variable R : State -> State -> Prop.
Hypothesis R_refl : forall st, R st st.
Hypothesis R_trans : forall a b c, R a b -> R b c -> R a c.
Hypothesis R_tick : forall st, R st (tick st).
Hypothesis R_mutate : forall g st,
  R st {| self := self st; world := log (EvMutate g) (world st) |}.
Hypothesis R_breed : forall a b st,
  R st {| self := self st; world := log (EvBreed a b) (world st) |}.

Lemma keeps_mutate_branch (sg : list Obj) : keeps R (mutate_branch sg).
Proof.
  apply (keeps_bind _ R_trans).
  - apply keeps_random_choice; auto.
  - intros g. apply (keeps_bind _ R_trans).
    + intros st. rewrite call_mutate_state. apply R_mutate.
    + intros c. apply keeps_ret, R_refl.
Qed.

Lemma keeps_breed_branch (sg : list Obj) : keeps R (breed_branch sg).
Proof.
  apply (keeps_bind _ R_trans).
  - apply keeps_random_sample_2; auto.
  - intros g. apply (keeps_bind _ R_trans).
    + intros st. rewrite call_breed_state. apply R_breed.
    + intros c. apply keeps_ret, R_refl.
Qed.

Lemma keeps_refill_step (sg : list Obj) : keeps R (refill_step sg).
Proof.
  apply (keeps_bind _ R_trans); [intros st; apply R_tick |]. intros x.
  apply (keeps_bind _ R_trans); [apply keeps_get_self, R_refl |]. intros p.
  destruct (Qle_bool x (mutate_probability p));
    [apply keeps_mutate_branch | apply keeps_breed_branch].
Qed.

Lemma keeps_refill (turns : list nat) : forall sg, keeps R (refill turns sg).
Proof.
  induction turns as [|t turns IH]; intros sg; simpl.
  - apply keeps_ret, R_refl.
  - apply (keeps_bind _ R_trans); [apply keeps_refill_step | intros l; apply IH].
Qed.
End KeepsRefill.

Lemma refill_self (turns : list nat) (sg : list Obj) :
  keeps same_self (refill turns sg).
Proof.
  apply keeps_refill; try reflexivity. apply same_self_trans.
Qed.

Lemma refill_tape (turns : list nat) (sg : list Obj) :
  keeps same_tape (refill turns sg).
Proof.
  apply keeps_refill; try reflexivity. apply same_tape_trans.
Qed.

(** A turn reads one draw and takes one of the two branches. *)
Lemma refill_step_unfold (sg : list Obj) (st : State) :
  refill_step sg st =
  if Qle_bool (unit_draw (next_raw st)) (mutate_probability (self st))
  then mutate_branch sg (tick st)
  else breed_branch sg (tick st).
Proof.
  unfold refill_step, bind, random_random, get_self, tick, next_raw. simpl.
  destruct (Qle_bool _ _); reflexivity.
Qed.

(** The loop appends one child per turn. *)
Lemma mutate_branch_grows (sg l : list Obj) (st st' : State) :
  mutate_branch sg st = (Ok l, st') -> exists child, l = sg ++ [child].
Proof.
  unfold mutate_branch, bind.
  destruct (random_choice sg st) as [[g | e] st1]; [| discriminate].
  destruct (call_mutate g st1) as [[c | e] st2]; [| discriminate].
  unfold ret. intros H. inversion H. eauto.
Qed.

Lemma breed_branch_grows (sg l : list Obj) (st st' : State) :
  breed_branch sg st = (Ok l, st') -> exists child, l = sg ++ [child].
Proof.
  unfold breed_branch, bind.
  destruct (random_sample_2 sg st) as [[g | e] st1]; [| discriminate].
  destruct (call_breed _ _ st1) as [[c | e] st2]; [| discriminate].
  unfold ret. intros H. inversion H. eauto.
Qed.

Lemma refill_step_grows (sg l : list Obj) (st st' : State) :
  refill_step sg st = (Ok l, st') -> exists child, l = sg ++ [child].
Proof.
  rewrite refill_step_unfold. destruct (Qle_bool _ _).
  - apply mutate_branch_grows.
  - apply breed_branch_grows.
Qed.

Lemma refill_grows (turns : list nat) :
  forall sg l st st',
    refill turns sg st = (Ok l, st') ->
    exists offspring,
      l = sg ++ offspring /\ length offspring = length turns.
Proof.
  induction turns as [|t turns IH]; intros sg l st st' H; simpl in H.
  - inversion H. exists []. split.
    + now rewrite app_nil_r.
    + reflexivity.
  - unfold bind in H.
    destruct (refill_step sg st) as [[l1 | e] st1] eqn:E; [| discriminate].
    destruct (refill_step_grows _ _ _ _ E) as [c Hc]. subst l1.
    destruct (IH _ _ _ _ H) as [off [Hl Hn]].
    exists (c :: off). split.
    + rewrite Hl, <- app_assoc. reflexivity.
    + simpl. now rewrite Hn.
Qed.

Lemma refill_length (turns : list nat) (sg l : list Obj) (st st' : State) :
  refill turns sg st = (Ok l, st') ->
  length l = (length sg + length turns)%nat.
Proof.
  intros H. destruct (refill_grows _ _ _ _ _ H) as [off [Hl Hn]].
  subst l. rewrite length_app. lia.
Qed.

(** ** Positions drawn by [random.choice] and [random.sample] *)

Lemma position_below_lt (n : nat) (raw : N) :
  (0 < n)%nat -> (position_below n raw < n)%nat.
Proof.
  intros H. unfold position_below.
  assert (B : (raw mod N.of_nat n < N.of_nat n)%N) by (apply N.mod_lt; lia).
  lia.
Qed.

Lemma position_below_reached (n i : nat) :
  (i < n)%nat -> position_below n (N.of_nat i) = i.
Proof.
  intros H. unfold position_below.
  rewrite N.mod_small by lia. lia.
Qed.

Lemma second_position_other (n i j : nat) :
  (i < n)%nat -> (j < Nat.pred n)%nat ->
  (second_position n i j < n)%nat /\ second_position n i j <> i.
Proof.
  intros Hi Hj. unfold second_position.
  destruct (Nat.eqb j i) eqn:E.
  - apply Nat.eqb_eq in E. lia.
  - apply Nat.eqb_neq in E. lia.
Qed.

(** Every ordered pair of different positions is the outcome of some
    pair of draws. *)
Lemma second_position_reached (n a b : nat) :
  (a < n)%nat -> (b < n)%nat -> a <> b ->
  exists j, (j < Nat.pred n)%nat /\ second_position n a j = b.
Proof.
  intros Ha Hb Hab. unfold second_position.
  destruct (Nat.eq_dec b (Nat.pred n)) as [E | E].
  - exists a. split; [lia |]. rewrite Nat.eqb_refl. auto.
  - exists b. split; [lia |].
    destruct (Nat.eqb b a) eqn:Eb; auto. apply Nat.eqb_eq in Eb. lia.
Qed.

Lemma nth_error_of_nth (l : list Obj) (i : nat) (d : Obj) :
  (i < length l)%nat -> nth_error l i = Some (nth i l d).
Proof. intros H. apply nth_error_nth'. exact H. Qed.

(** What the mutation branch does, whatever the mutator answers. *)
Lemma mutate_branch_event (sg : list Obj) (st : State) :
  (sg = [] /\ mutate_branch sg st = (Raise IndexError, st))
  \/ exists g,
       nth_error sg (position_below (length sg) (next_raw st)) = Some g
       /\ snd (mutate_branch sg st)
          = {| self := self st;
               world := log (EvMutate g) (advance (world st)) |}
       /\ fst (mutate_branch sg st)
          = match mutate (mutator (self st)) (trace (world st)) g with
            | inl e => Raise e
            | inr child => Ok (sg ++ [child])
            end.
Proof.
  destruct sg as [|x sg']; [left; split; reflexivity | right].
  set (sg := x :: sg').
  exists (nth (position_below (length sg) (next_raw st)) sg x).
  split; [apply nth_error_of_nth, position_below_lt; simpl; lia |].
  unfold mutate_branch, bind, random_choice, randbelow, bind, call_mutate, ret.
  simpl. fold sg. unfold next_raw.
  destruct (mutate _ _ _); split; reflexivity.
Qed.

(** The two positions [random.sample] draws are different positions of
    the list, and drawing them records nothing. *)
Lemma redraw_other (fuel n i : nat) :
  forall st,
    (i < n)%nat -> (2 <= n)%nat ->
    exists j st1,
      redraw fuel n i st = (Ok j, st1)
      /\ (j < n)%nat /\ j <> i.
Proof.
  induction fuel as [|fuel IH]; intros st Hi Hn; simpl; unfold bind, randbelow.
  - eexists. eexists. split; [reflexivity |].
    apply second_position_other; [exact Hi |].
    apply position_below_lt. lia.
  - simpl.
    destruct (Nat.eqb (position_below n (tape (world st) (cursor (world st)))) i)
      eqn:E.
    + apply IH; assumption.
    + eexists. eexists. split; [reflexivity |].
      split; [apply position_below_lt; lia | now apply Nat.eqb_neq].
Qed.

Lemma sample_positions_unfold (n : nat) (st : State) :
  sample_positions n st =
  if (n <=? pool_limit)%nat
  then (Ok (position_below n (next_raw st),
            second_position n (position_below n (next_raw st))
              (position_below (Nat.pred n) (next_raw (tick st)))),
        tick (tick st))
  else match redraw redraw_limit n (position_below n (next_raw st))
               (tick st) with
       | (Ok j, st1) => (Ok (position_below n (next_raw st), j), st1)
       | (Raise e, st1) => (Raise e, st1)
       end.
Proof.
  unfold sample_positions, bind, randbelow, next_raw, tick.
  destruct (n <=? pool_limit)%nat; reflexivity.
Qed.

Lemma sample_positions_ok (n : nat) (st : State) :
  (2 <= n)%nat ->
  exists i j st1,
    sample_positions n st = (Ok (i, j), st1)
    /\ i = position_below n (next_raw st)
    /\ (i < n)%nat /\ (j < n)%nat /\ i <> j
    /\ self st1 = self st /\ trace (world st1) = trace (world st).
Proof.
  intros Hn.
  pose proof (sample_positions_state n st) as [HS HT].
  assert (Hi : (position_below n (next_raw st) < n)%nat)
    by (apply position_below_lt; lia).
  rewrite sample_positions_unfold in *.
  destruct (n <=? pool_limit)%nat.
  - destruct (second_position_other n (position_below n (next_raw st))
                (position_below (Nat.pred n) (next_raw (tick st))) Hi)
      as [B D]; [apply position_below_lt; lia |].
    eexists. eexists. eexists. split; [reflexivity |].
    repeat split; auto.
  - destruct (redraw_other redraw_limit n (position_below n (next_raw st))
                (tick st) Hi Hn) as [j [st1 [E [Hj Hd]]]].
    rewrite E in *. simpl in HS, HT.
    exists (position_below n (next_raw st)), j, st1.
    repeat split; auto.
Qed.

(** What the breeding branch does, whatever the breeder answers. *)
Lemma breed_branch_event (sg : list Obj) (st : State) :
  ((length sg < 2)%nat /\ breed_branch sg st = (Raise ValueError, st))
  \/ exists i j a b st1,
       sample_positions (length sg) st = (Ok (i, j), st1)
       /\ i <> j
       /\ nth_error sg i = Some a /\ nth_error sg j = Some b
       /\ self st1 = self st /\ trace (world st1) = trace (world st)
       /\ snd (breed_branch sg st)
          = {| self := self st; world := log (EvBreed a b) (world st1) |}
       /\ fst (breed_branch sg st)
          = match breed (breeder (self st)) (trace (world st)) a b with
            | inl e => Raise e
            | inr child => Ok (sg ++ [child])
            end.
Proof.
  destruct sg as [|x [|y sg']];
    [left; split; [simpl; lia | reflexivity]
    |left; split; [simpl; lia | reflexivity] | right].
  remember (x :: y :: sg') as sg eqn:Esg.
  destruct (sample_positions_ok (length sg) st) as
    [i [j [st1 [E [_ [Hi [Hj [Hij [Hs Ht]]]]]]]]]; [subst sg; simpl; lia |].
  exists i, j, (nth i sg x), (nth j sg x), st1.
  split; [exact E |]. split; [exact Hij |].
  split; [apply nth_error_of_nth; exact Hi |].
  split; [apply nth_error_of_nth; exact Hj |].
  split; [exact Hs |]. split; [exact Ht |].
  assert (U : random_sample_2 sg st
              = (Ok (nth i sg x, nth j sg x), st1)).
  { rewrite Esg. unfold random_sample_2, bind. rewrite <- Esg, E.
    reflexivity. }
  unfold breed_branch, bind. rewrite U. unfold ret, call_breed.
  cbn [fst snd]. rewrite Hs, Ht.
  destruct (breed _ _ _ _); split; reflexivity.
Qed.

(** ** Initialisation *)

Lemma mutate_each (seed : Obj) (its : list nat) :
  forall st,
    (forall h, exists g, mutate (mutator (self st)) h seed = inr g) ->
    exists l st',
      mapM (fun _ => call_mutate seed) its st = (Ok l, st')
      /\ self st' = self st
      /\ trace (world st')
         = trace (world st) ++ repeat (EvMutate seed) (length its)
      /\ length l = length its
      /\ forall i g, nth_error l i = Some g ->
           mutate (mutator (self st))
                  (trace (world st) ++ repeat (EvMutate seed) i) seed = inr g.
Proof.
  induction its as [|t its IH]; intros st Htot; simpl.
  - exists [], st. repeat split; auto.
    + now rewrite app_nil_r.
    + intros i g H. destruct i; discriminate.
  - unfold bind. unfold call_mutate at 1.
    destruct (Htot (trace (world st))) as [g0 Hg0]. rewrite Hg0.
    set (st1 := {| self := self st; world := log (EvMutate seed) (world st) |}).
    destruct (IH st1 Htot) as [l [st' [Hm [Hs [Ht [Hl Hn]]]]]].
    rewrite Hm. exists (g0 :: l), st'. simpl in *.
    repeat split; auto.
    + rewrite Ht, <- app_assoc. reflexivity.
    + intros i g H. destruct i as [|i]; simpl in H.
      * inversion H; subst. now rewrite app_nil_r.
      * specialize (Hn i g H). rewrite <- app_assoc in Hn. exact Hn.
Qed.

Lemma init_genes_total (seed : Obj) (st : State) :
  (forall h, exists g, mutate (mutator (self st)) h seed = inr g) ->
  exists l st',
    init_genes seed st = (Ok tt, st')
    /\ self st' = set_organisms l (self st)
    /\ Z.of_nat (length l) = Z.max 0 (num_organisms (self st))
    /\ new_events st st' = repeat (EvMutate seed) (length l)
    /\ forall i g, nth_error l i = Some g ->
         mutate (mutator (self st))
                (trace (world st) ++ repeat (EvMutate seed) i) seed = inr g.
Proof.
  intros Htot.
  destruct (mutate_each seed (range (num_organisms (self st))) st Htot)
    as [l [st1 [Hm [Hs [Ht [Hl Hn]]]]]].
  exists l, {| self := set_organisms l (self st1); world := world st1 |}.
  split; [| split; [| split; [| split]]].
  - unfold init_genes, bind, get_self, modify_self. rewrite Hm. reflexivity.
  - simpl. now rewrite Hs.
  - rewrite Hl. unfold range. rewrite length_seq. lia.
  - apply new_events_app. simpl. now rewrite Ht, Hl.
  - exact Hn.
Qed.

(** ** The mutate-or-breed test *)

Lemma unit_draw_bounds (raw : N) :
  0 <= Qnum (unit_draw raw) < 9007199254740992
  /\ Qden (unit_draw raw) = 9007199254740992%positive.
Proof.
  unfold unit_draw. cbn [Qnum Qden].
  assert (B : (raw mod two_53 < two_53)%N) by (apply N.mod_lt; discriminate).
  set (m := (raw mod two_53)%N) in *. clearbody m. unfold two_53 in B.
  split; [lia | reflexivity].
Qed.

Lemma draw_above_zero (raw : N) (p : Q) :
  p == 0 -> (raw mod two_53 <> 0)%N -> Qle_bool (unit_draw raw) p = false.
Proof.
  intros Hp Hr. destruct (Qle_bool (unit_draw raw) p) eqn:E; auto.
  apply Qle_bool_iff in E. rewrite Hp in E.
  unfold Qle, unit_draw in E. cbn [Qnum Qden] in E.
  set (m := (raw mod two_53)%N) in *. clearbody m. exfalso. lia.
Qed.

Lemma draw_is_zero (raw : N) (p : Q) :
  p == 0 -> (raw mod two_53 = 0)%N -> Qle_bool (unit_draw raw) p = true.
Proof.
  intros Hp Hr. apply Qle_bool_iff. rewrite Hp.
  unfold Qle, unit_draw. cbn [Qnum Qden]. rewrite Hr. lia.
Qed.

Lemma draw_below_one (raw : N) (p : Q) :
  p == 1 -> Qle_bool (unit_draw raw) p = true.
Proof.
  intros Hp. apply Qle_bool_iff. rewrite Hp.
  destruct (unit_draw_bounds raw) as [B D].
  unfold Qle. rewrite D. cbn [Qnum Qden]. lia.
Qed.

Lemma refill_step_breeds (sg : list Obj) (st : State) :
  mutate_probability (self st) == 0 ->
  (next_raw st mod two_53 <> 0)%N ->
  refill_step sg st = breed_branch sg (tick st).
Proof.
  intros Hp Hr. rewrite refill_step_unfold.
  now rewrite (draw_above_zero _ _ Hp Hr).
Qed.

Lemma refill_step_mutates (sg : list Obj) (st : State) :
  mutate_probability (self st) == 1 ->
  refill_step sg st = mutate_branch sg (tick st).
Proof.
  intros Hp. rewrite refill_step_unfold.
  now rewrite (draw_below_one _ _ Hp).
Qed.

(** ** Which strategy the loop calls *)

Lemma refill_frame_refl (P : Event -> bool) (st : State) : refill_frame P st st.
Proof.
  split; [reflexivity |]. split; [reflexivity | apply only_events_refl].
Qed.

Lemma refill_frame_trans (P : Event -> bool) (a b c : State) :
  refill_frame P a b -> refill_frame P b c -> refill_frame P a c.
Proof.
  intros [S1 [T1 E1]] [S2 [T2 E2]]. split; [| split].
  - eapply same_self_trans; eauto.
  - eapply same_tape_trans; eauto.
  - eapply only_events_trans; eauto.
Qed.

Lemma refill_frame_tick (P : Event -> bool) (st : State) :
  refill_frame P st (tick st).
Proof.
  split; [exact eq_refl |]. split; [exact eq_refl |].
  exists []. split; [simpl; now rewrite app_nil_r | reflexivity].
Qed.

Lemma refill_frame_log (P : Event -> bool) (ev : Event) (st : State) :
  P ev = true ->
  refill_frame P st {| self := self st; world := log ev (world st) |}.
Proof.
  intros H. split; [exact eq_refl |]. split; [exact eq_refl |].
  exists [ev]. simpl. now rewrite H.
Qed.

Lemma breed_branch_frame (sg : list Obj) :
  keeps (refill_frame is_breed) (breed_branch sg).
Proof.
  apply keeps_breed_branch.
  - apply refill_frame_refl.
  - apply refill_frame_trans.
  - apply refill_frame_tick.
  - intros a b st. now apply refill_frame_log.
Qed.

Lemma mutate_branch_frame (sg : list Obj) :
  keeps (refill_frame is_mutate) (mutate_branch sg).
Proof.
  apply keeps_mutate_branch.
  - apply refill_frame_refl.
  - apply refill_frame_trans.
  - apply refill_frame_tick.
  - intros g st. now apply refill_frame_log.
Qed.

Lemma refill_only_breeds (turns : list nat) :
  forall sg st,
    mutate_probability (self st) == 0 ->
    (forall i, (tape (world st) i mod two_53 <> 0)%N) ->
    refill_frame is_breed st (snd (refill turns sg st)).
Proof.
  induction turns as [|t turns IH]; intros sg st Hp Ht; simpl.
  - apply refill_frame_refl.
  - unfold bind. rewrite (refill_step_breeds sg st Hp (Ht _)).
    pose proof (breed_branch_frame sg (tick st)) as Hb.
    destruct (breed_branch sg (tick st)) as [[l | e] st1]; simpl in *.
    + destruct Hb as [S1 [T1 E1]].
      assert (F1 : refill_frame is_breed st st1).
      { apply (refill_frame_trans _ _ (tick st));
          [apply refill_frame_tick | repeat split; auto]. }
      eapply refill_frame_trans; [exact F1 |]. apply IH.
      * unfold same_self in S1. simpl in S1. now rewrite S1.
      * unfold same_tape in T1. simpl in T1. now rewrite T1.
    + apply (refill_frame_trans _ _ (tick st));
        [apply refill_frame_tick | exact Hb].
Qed.

Lemma refill_only_mutates (turns : list nat) :
  forall sg st,
    mutate_probability (self st) == 1 ->
    refill_frame is_mutate st (snd (refill turns sg st)).
Proof.
  induction turns as [|t turns IH]; intros sg st Hp; simpl.
  - apply refill_frame_refl.
  - unfold bind. rewrite (refill_step_mutates sg st Hp).
    pose proof (mutate_branch_frame sg (tick st)) as Hb.
    destruct (mutate_branch sg (tick st)) as [[l | e] st1]; simpl in *.
    + destruct Hb as [S1 [T1 E1]].
      assert (F1 : refill_frame is_mutate st st1).
      { apply (refill_frame_trans _ _ (tick st));
          [apply refill_frame_tick | repeat split; auto]. }
      eapply refill_frame_trans; [exact F1 |]. apply IH.
      unfold same_self in S1. simpl in S1. now rewrite S1.
    + apply (refill_frame_trans _ _ (tick st));
        [apply refill_frame_tick | exact Hb].
Qed.

(** ** Where the loop takes its parents from *)

Lemma mutate_branch_draws (sg : list Obj) (st : State) :
  (0 < length sg)%nat ->
  exists g,
    nth_error sg (position_below (length sg) (next_raw st)) = Some g
    /\ trace (world (snd (mutate_branch sg st)))
       = trace (world st) ++ [EvMutate g]
    /\ fst (mutate_branch sg st)
       = match mutate (mutator (self st)) (trace (world st)) g with
         | inl e => Raise e
         | inr child => Ok (sg ++ [child])
         end.
Proof.
  intros Hn.
  destruct (mutate_branch_event sg st) as [[E _] | [g [Hg [Hs Hf]]]].
  - subst sg. simpl in Hn. lia.
  - exists g. rewrite Hs. auto.
Qed.

Lemma breed_branch_draws (sg : list Obj) (st : State) :
  (2 <= length sg)%nat ->
  exists i j a b,
    i <> j /\ nth_error sg i = Some a /\ nth_error sg j = Some b
    /\ trace (world (snd (breed_branch sg st)))
       = trace (world st) ++ [EvBreed a b]
    /\ fst (breed_branch sg st)
       = match breed (breeder (self st)) (trace (world st)) a b with
         | inl e => Raise e
         | inr child => Ok (sg ++ [child])
         end.
Proof.
  intros Hn.
  destruct (breed_branch_event sg st)
    as [[E _] | [i [j [a [b [st1 [_ [Hij [Ha [Hb [_ [Ht [Hs Hf]]]]]]]]]]]]].
  - lia.
  - exists i, j, a, b. rewrite Hs. simpl. rewrite Ht. auto.
Qed.

Lemma refill_step_draws (sg l : list Obj) (st st' : State) :
  refill_step sg st = (Ok l, st') ->
  exists child ev,
    l = sg ++ [child]
    /\ trace (world st') = trace (world st) ++ [ev]
    /\ drawn_from sg ev.
Proof.
  rewrite refill_step_unfold. intros H.
  destruct (Qle_bool _ _).
  - destruct (mutate_branch_event sg (tick st)) as [[_ E] | [g [Hg [Hs Hf]]]].
    + rewrite E in H. discriminate.
    + rewrite H in Hs, Hf. simpl in Hs, Hf.
      destruct (mutate _ _ _) as [e | child]; [discriminate |].
      inversion Hf; subst l. exists child, (EvMutate g).
      split; [reflexivity |]. split; [now rewrite Hs |].
      simpl. eauto.
  - destruct (breed_branch_event sg (tick st))
      as [[_ E] | [i [j [a [b [st1 [_ [Hij [Ha [Hb [_ [Ht [Hs Hf]]]]]]]]]]]]].
    + rewrite E in H. discriminate.
    + rewrite H in Hs, Hf. simpl in Hs, Hf.
      destruct (breed _ _ _ _) as [e | child]; [discriminate |].
      inversion Hf; subst l. exists child, (EvBreed a b).
      split; [reflexivity |]. split; [rewrite Hs; simpl; now rewrite Ht |].
      simpl. eauto.
Qed.

Lemma refill_draws (turns : list nat) :
  forall sg l st st',
    refill turns sg st = (Ok l, st') ->
    exists offspring,
      l = sg ++ offspring
      /\ length offspring = length turns
      /\ turns_draw_from sg offspring (new_events st st').
Proof.
  induction turns as [|t turns IH]; intros sg l st st' H; simpl in H.
  - inversion H; subst. exists []. split; [now rewrite app_nil_r |].
    split; [reflexivity |]. rewrite new_events_same; simpl; auto.
  - unfold bind in H.
    destruct (refill_step sg st) as [[l1 | e] st1] eqn:E; [| discriminate].
    destruct (refill_step_draws _ _ _ _ E) as [c [ev [Hl [Ht Hd]]]]. subst l1.
    destruct (IH _ _ _ _ H) as [off [Hl [Hn Hdraw]]].
    destruct (stops_refill turns (sg ++ [c]) st1 _ _ H) as [_ [new [T _]]].
    exists (c :: off). split; [| split].
    + rewrite Hl, <- app_assoc. reflexivity.
    + simpl. now rewrite Hn.
    + rewrite (new_events_app _ _ _ T) in Hdraw.
      rewrite (new_events_app st st' (ev :: new)).
      * simpl. auto.
      * rewrite T, Ht, <- app_assoc. reflexivity.
Qed.

(** ** The positions [random.sample] draws on a long list *)

Lemma redraw_exact (fuel : nat) :
  forall m n i st j,
    (m < fuel)%nat ->
    (forall k, (k < m)%nat -> position_below n (next_raw (ticks k st)) = i) ->
    position_below n (next_raw (ticks m st)) = j ->
    j <> i ->
    redraw fuel n i st = (Ok j, ticks (S m) st).
Proof.
  induction fuel as [|fuel IH]; intros m n i st j Hm Hsame Hj Hd; [lia |].
  simpl. unfold bind, randbelow. fold (next_raw st).
  change {| self := self st; world := advance (world st) |} with (tick st).
  destruct m as [|m]; simpl in Hj.
  - apply Nat.eqb_neq in Hd. rewrite Hj, Hd. reflexivity.
  - assert (H0 : position_below n (next_raw st) = i)
      by (apply (Hsame 0%nat); lia).
    rewrite H0, Nat.eqb_refl.
    apply (IH m n i (tick st) j); try lia; auto.
    intros k Hk. apply (Hsame (S k)). lia.
Qed.

(** ** The evaluation pass, whatever the evaluator answers *)

Lemma evaluate_all_cons (g : Obj) (genes : list Obj) (st : State) :
  evaluate_all (g :: genes) st =
  match evaluate (evaluator (self st)) (trace (world st)) g with
  | inl e =>
      (Raise e, {| self := self st; world := log (EvEvaluate g) (world st) |})
  | inr f =>
      match evaluate_all genes
              {| self := self st; world := log (EvEvaluate g) (world st) |} with
      | (Ok gf, st') => (Ok ((g, f) :: gf), st')
      | (Raise e, st') => (Raise e, st')
      end
  end.
Proof.
  unfold evaluate_all. simpl. unfold bind, call_evaluate, ret.
  destruct (evaluate _ _ _); reflexivity.
Qed.

Lemma evaluate_all_any (genes : list Obj) :
  forall st r st',
    evaluate_all genes st = (r, st') ->
    self st' = self st /\ same_random st st'
    /\ exists k,
         (k <= length genes)%nat
         /\ trace (world st')
            = trace (world st) ++ map EvEvaluate (firstn k genes)
         /\ (forall gf, r = Ok gf ->
               k = length genes /\ map fst gf = genes
               /\ forall i g f, nth_error gf i = Some (g, f) ->
                    evaluate (evaluator (self st))
                      (trace (world st) ++ map EvEvaluate (firstn i genes)) g
                    = inr f)
         /\ (forall e, r = Raise e ->
               exists j g, k = S j /\ nth_error genes j = Some g
                 /\ evaluate (evaluator (self st))
                      (trace (world st) ++ map EvEvaluate (firstn j genes)) g
                    = inl e).
Proof.
  induction genes as [|g genes IH]; intros st r st' H.
  - inversion H; subst. split; [reflexivity |]. split; [split; reflexivity |].
    exists 0%nat. simpl. rewrite app_nil_r.
    split; [lia |]. split; [reflexivity |]. split.
    + intros gf Hg. inversion Hg; subst. repeat split; auto.
      intros i g f Hn. destruct i; discriminate.
    + intros e He. discriminate.
  - rewrite evaluate_all_cons in H.
    destruct (evaluate (evaluator (self st)) (trace (world st)) g)
      as [e0 | f0] eqn:E0.
    + inversion H; subst. simpl.
      split; [reflexivity |]. split; [split; reflexivity |].
      exists 1%nat. simpl.
      split; [lia |]. split; [reflexivity |]. split.
      * intros gf Hg. discriminate.
      * intros e He. inversion He; subst. exists 0%nat, g.
        simpl. rewrite app_nil_r. auto.
    + set (st1 := {| self := self st;
                     world := log (EvEvaluate g) (world st) |}) in *.
      destruct (evaluate_all genes st1) as [[gf | e] st2] eqn:Em;
        destruct (IH st1 _ _ Em) as [Hs [[Ht Hc] [k [Hk [Htr [Hok Hfail]]]]]];
        inversion H; subst r st'; clear H;
        (split; [exact Hs |]); (split; [split; assumption |]);
        exists (S k); simpl in *;
        (split; [lia |]);
        (split; [rewrite Htr, <- app_assoc; reflexivity |]); split.
      * intros gf' Hg. inversion Hg; subst gf'.
        destruct (Hok gf eq_refl) as [Ek [Em' Hn]].
        split; [lia |]. split; [simpl; now rewrite Em' |].
        intros i g' f' Hi. destruct i as [|i]; simpl in Hi.
        -- inversion Hi; subst. simpl. now rewrite app_nil_r.
        -- specialize (Hn i g' f' Hi). simpl.
           rewrite <- app_assoc in Hn. exact Hn.
      * intros e He. discriminate.
      * intros gf' Hg. discriminate.
      * intros e' He. inversion He; subst e'.
        destruct (Hfail e eq_refl) as [j [g' [Ej [Hg' Hj]]]].
        exists (S j), g'. split; [lia |]. split; [exact Hg' |].
        simpl. rewrite <- app_assoc in Hj. exact Hj.
Qed.

(** ** A generation that completes *)

Lemma generation_with_unfold (select : list (Obj * Z) -> M (list Obj))
    (g : nat) (st : State) :
  generation_with select g st =
  match evaluate_all (organisms (self st)) (snd (print g st)) with
  | (Raise e, st2) => (Raise e, st2)
  | (Ok gene_fitnesses, st2) =>
      match py_max gene_fitnesses snd with
      | inl e => (Raise e, st2)
      | inr best =>
          match select gene_fitnesses (record_best best st2) with
          | (Raise e, st3) => (Raise e, st3)
          | (Ok survivors, st3) =>
              match refill (range (num_organisms (self st3) - topk (self st3)))
                      survivors st3 with
              | (Raise e, st4) => (Raise e, st4)
              | (Ok grown, st4) =>
                  (Ok tt, {| self := set_organisms grown (self st4);
                             world := world st4 |})
              end
          end
      end
  end.
Proof.
  unfold generation_with, bind, print, modify_world, get_self, record_best.
  simpl.
  destruct (evaluate_all _ _) as [[gf | e] st2]; auto.
  destruct (py_max gf snd) as [e | best]; simpl; auto.
  destruct (snd best >? best_fitness (self st2)); simpl;
    destruct (select gf _) as [[l | e] st3]; auto;
    destruct (refill _ l st3) as [[l' | e] st4]; reflexivity.
Qed.

Lemma evaluate_all_length (genes : list Obj) (st : State)
    (gf : list (Obj * Z)) (st' : State) :
  evaluate_all genes st = (Ok gf, st') ->
  length gf = length genes /\ self st' = self st.
Proof.
  intros H.
  destruct (evaluate_all_any genes st _ _ H) as [Hs [_ [k [_ [_ [Hok _]]]]]].
  destruct (Hok gf eq_refl) as [_ [Hm _]].
  split; [| exact Hs].
  rewrite <- (length_map fst gf). now rewrite Hm.
Qed.

Lemma record_best_counts (b : Obj * Z) (st : State) :
  num_organisms (self (record_best b st)) = num_organisms (self st)
  /\ topk (self (record_best b st)) = topk (self st).
Proof. unfold record_best. destruct (_ >? _); split; reflexivity. Qed.

Lemma generation_with_completes (select : list (Obj * Z) -> M (list Obj))
    (g : nat) (st st' : State) :
  returns_topk select ->
  0 <= topk (self st) <= num_organisms (self st) ->
  Z.of_nat (length (organisms (self st))) = num_organisms (self st) ->
  generation_with select g st = (Ok tt, st') ->
  num_organisms (self st') = num_organisms (self st)
  /\ topk (self st') = topk (self st)
  /\ Z.of_nat (length (organisms (self st'))) = num_organisms (self st).
Proof.
  intros Hsel HK Hlen H. rewrite generation_with_unfold in H.
  destruct (evaluate_all (organisms (self st)) (snd (print g st)))
    as [[gf | e] st2] eqn:E; [| discriminate].
  destruct (evaluate_all_length _ _ _ _ E) as [Hgf Hs2]. simpl in Hs2.
  destruct (py_max gf snd) as [e | best]; [discriminate |].
  destruct (record_best_counts best st2) as [HN HKb].
  destruct (select gf (record_best best st2)) as [[l | e] st3] eqn:Es;
    [| discriminate].
  destruct (Hsel gf (record_best best st2) l st3) as [Hl [HN3 HK3]];
    [rewrite HKb, Hs2, Hgf; lia | exact Es |].
  destruct (refill (range (num_organisms (self st3) - topk (self st3))) l st3)
    as [[l' | e] st4] eqn:Er; [| discriminate].
  pose proof (refill_length _ _ _ _ _ Er) as Hl'.
  pose proof (refill_self (range (num_organisms (self st3) - topk (self st3)))
                l st3) as Hs4.
  rewrite Er in Hs4. unfold same_self in Hs4. simpl in Hs4.
  inversion H; subst st'. simpl. rewrite Hs4.
  rewrite HN3, HK3, HN, HKb, Hs2 in *.
  repeat split; auto.
  rewrite Hl'. unfold range. rewrite length_seq. lia.
Qed.

Lemma generations_complete (select : list (Obj * Z) -> M (list Obj))
    (its : list nat) :
  returns_topk select ->
  forall st st',
    0 <= topk (self st) <= num_organisms (self st) ->
    Z.of_nat (length (organisms (self st))) = num_organisms (self st) ->
    for_each (generation_with select) its st = (Ok tt, st') ->
    num_organisms (self st') = num_organisms (self st)
    /\ Z.of_nat (length (organisms (self st'))) = num_organisms (self st).
Proof.
  intros Hsel. induction its as [|g its IH]; intros st st' HK Hlen H.
  - inversion H; subst. auto.
  - simpl in H. unfold bind in H.
    destruct (generation_with select g st) as [[[] | e] st1] eqn:E;
      [| discriminate].
    destruct (generation_with_completes select g st st1 Hsel HK Hlen E)
      as [HN [HK1 Hl1]].
    destruct (IH st1 st') as [HN' Hl']; try exact H.
    + rewrite HN, HK1. exact HK.
    + rewrite HN. exact Hl1.
    + rewrite HN', Hl', HN. auto.
Qed.

Lemma insert_by_length {A} (key : A -> Z) (x : A) (l : list A) :
  length (insert_by key x l) = S (length l).
Proof.
  induction l as [|y l IH]; simpl; auto.
  destruct (key x <=? key y); simpl; auto.
Qed.

Lemma sort_by_length {A} (key : A -> Z) (l : list A) :
  length (sort_by key l) = length l.
Proof.
  induction l as [|x l IH]; simpl; auto.
  now rewrite insert_by_length, IH.
Qed.

Lemma keep_top_k_returns_topk : returns_topk keep_top_k.
Proof.
  intros gf st l st' HK H. unfold keep_top_k, bind, get_self, ret in H.
  inversion H; subst. repeat split; auto.
  rewrite length_map, length_firstn, sort_by_length. lia.
Qed.

(** In the class as it is, a call of [run_generations] with a positive
    count raises during its first generation, without a mutate or breed
    call, and leaves the organisms untouched. *)
Lemma no_generation_completes (n : positive) (sp : bool) (st : State) :
  exists e new,
    fst (run_generations (Z.pos n) sp st) = Raise e
    /\ organisms (self (snd (run_generations (Z.pos n) sp st)))
       = organisms (self st)
    /\ trace (world (snd (run_generations (Z.pos n) sp st)))
       = trace (world st) ++ new
    /\ forallb (fun ev => negb (is_mutate ev) && negb (is_breed ev)) new = true.
Proof.
  destruct (run_generations_pos n sp st) as [e E].
  destruct (generation_events 0 st) as [new [T F]].
  exists e, new. rewrite E. simpl.
  split; [reflexivity |]. split; [apply generation_organisms |]. auto.
Qed.


(** * The claims *)

(** C1. Survivor selection is meant to keep the [top_k] candidates with
    the highest scores.  It keeps nothing: [kill_the_weak] hands the key
    function to [sort] as a positional argument, which raises
    [TypeError] on every input, so a generation such as three genes
    scoring 1, 3 and 2 with [top_k = 2] ends in that exception with the
    organisms as they were. *)
Theorem survivor_selection_raises :
  (forall genes st, fst (kill_the_weak genes st) = Raise TypeError)
  /\ (let st := {| self := sample_population 3 2
                             [Gene "A"; Gene "Bcc"; Gene "Cc"] (1 # 2);
                   world := quiet (constant_tape 0) |} in
      fst (kill_the_weak [(Gene "A", 1); (Gene "Bcc", 3); (Gene "Cc", 2)] st)
        = Raise TypeError
      /\ fst (run_generations 1 false st) = Raise TypeError
      /\ organisms (self (snd (run_generations 1 false st)))
         = [Gene "A"; Gene "Bcc"; Gene "Cc"]).
Proof.
  split; [reflexivity |]. repeat split; reflexivity.
Qed.

(** C2. The organisms are [num_organisms] many at the start and end of
    every completed generation, for every pair of counts with
    [1 <= top_k <= num_organisms]:
    - a call of [run_generations] never changes the organisms, however
      it ends;
    - the refill loop appends exactly [num_organisms - top_k] children
      to [top_k] survivors, which makes [num_organisms];
    - whatever method [kill_the_weak] the object has, if it returns
      [top_k] survivors then a generation that starts with
      [num_organisms] organisms and completes ends with [num_organisms]
      organisms, and so does a call that returns, which returns them. *)
Theorem organisms_count_kept :
  (forall n sp st,
     organisms (self (snd (run_generations n sp st))) = organisms (self st))
  /\ (forall N K sg st l st',
        1 <= K <= N ->
        Z.of_nat (length sg) = K ->
        refill (range (N - K)) sg st = (Ok l, st') ->
        Z.of_nat (length l) = N)
  /\ (forall select g st st',
        returns_topk select ->
        1 <= topk (self st) <= num_organisms (self st) ->
        Z.of_nat (length (organisms (self st))) = num_organisms (self st) ->
        generation_with select g st = (Ok tt, st') ->
        Z.of_nat (length (organisms (self st'))) = num_organisms (self st')
        /\ num_organisms (self st') = num_organisms (self st))
  /\ (forall select n sp st l st',
        returns_topk select ->
        1 <= topk (self st) <= num_organisms (self st) ->
        Z.of_nat (length (organisms (self st))) = num_organisms (self st) ->
        run_generations_with select n sp st = (Ok l, st') ->
        l = organisms (self st')
        /\ Z.of_nat (length l) = num_organisms (self st))
  /\ (forall n sp st,
        run_generations_with kill_the_weak n sp st = run_generations n sp st).
Proof.
  split; [| split; [| split; [| split]]].
  - intros n sp st. destruct n as [| n | n].
    + rewrite run_generations_nonpos by lia. reflexivity.
    + destruct (run_generations_pos n sp st) as [e E]. rewrite E. simpl.
      apply generation_organisms.
    + rewrite run_generations_nonpos by lia. reflexivity.
  - intros N K sg st l st' HK Hsg H.
    rewrite (refill_length _ _ _ _ _ H). unfold range. rewrite length_seq.
    lia.
  - intros select g st st' Hsel HK Hlen H.
    assert (HK0 : 0 <= topk (self st) <= num_organisms (self st)) by lia.
    destruct (generation_with_completes select g st st' Hsel HK0 Hlen H)
      as [HN [_ Hl]].
    split; [now rewrite HN | exact HN].
  - intros select n sp st l st' Hsel HK Hlen H.
    unfold run_generations_with, tqdm, bind in H.
    assert (E : (if sp then range n else range n) = range n)
      by (destruct sp; reflexivity).
    rewrite E in H.
    destruct (for_each (generation_with select) (range n) st)
      as [[[] | e] st1] eqn:Ef; [| discriminate].
    unfold get_self, ret in H. inversion H; subst l st'.
    split; [reflexivity |].
    assert (HK0 : 0 <= topk (self st) <= num_organisms (self st)) by lia.
    destruct (generations_complete select (range n) Hsel st st1 HK0 Hlen Ef)
      as [_ Hl].
    exact Hl.
  - reflexivity.
Qed.

Lemma organisms_count_kept_witness :
  let st := {| self := sample_population 3 2
                         [Gene "A"; Gene "Bcc"; Gene "Cc"] 1;
               world := quiet (constant_tape 0) |} in
  Z.of_nat (length [Gene "Bcc"; Gene "Cc"; Gene "Bccm"]) = 3
  /\ ([Gene "Bcc"; Gene "Cc"; Gene "Bccm"]
      = organisms (self (snd (run_generations_with keep_top_k 1 false st)))
      /\ Z.of_nat (length [Gene "Bcc"; Gene "Cc"; Gene "Bccm"])
         = num_organisms (self st)).
Proof.
  intros st. split.
  - apply (proj1 (proj2 organisms_count_kept) 3 2 [Gene "Bcc"; Gene "Cc"]
             (refill_state 1 (constant_tape 0))
             [Gene "Bcc"; Gene "Cc"; Gene "Bccm"]
             (snd (refill (range (3 - 2)) [Gene "Bcc"; Gene "Cc"]
                     (refill_state 1 (constant_tape 0))))).
    + lia.
    + reflexivity.
    + reflexivity.
  - apply (proj1 (proj2 (proj2 (proj2 organisms_count_kept)))
             keep_top_k 1 false st
             [Gene "Bcc"; Gene "Cc"; Gene "Bccm"]
             (snd (run_generations_with keep_top_k 1 false st))).
    + apply keep_top_k_returns_topk.
    + simpl. lia.
    + reflexivity.
    + reflexivity.
Defined.

(** C3. The stored best score never decreases, over the generations of
    one call and over successive calls of [run_generations] on the same
    object, whether they return or raise: a generation either leaves the
    best pair alone or replaces it by the pair [max] found among its
    scores, and only when that score is strictly above the stored one. *)
Theorem best_fitness_monotone :
  (forall g st,
     self (snd (generation g st)) = self st
     \/ exists gene_fitnesses st2 best,
          evaluate_all (organisms (self st)) (snd (print g st))
            = (Ok gene_fitnesses, st2)
          /\ py_max gene_fitnesses snd = inr best
          /\ best_fitness (self st) < snd best
          /\ self (snd (generation g st))
             = set_best (Some (fst best)) (snd best) (self st))
  /\ (forall n sp st,
        best_kept_or_raised (self st) (self (snd (run_generations n sp st))))
  /\ (forall calls st,
        best_fitness (self st) <= best_fitness (self (run_calls calls st))).
Proof.
  split; [exact generation_best |]. split.
  - intros n sp st. apply (run_generations_best_order n sp st).
  - intros calls st.
    assert (H : best_order st (run_calls calls st)).
    { apply keeps_run_calls.
      - apply best_order_refl.
      - apply best_order_trans.
      - apply run_generations_best_order. }
    destruct H as [[_ H] | H]; lia.
Qed.

(** C4, as the code has it.  With a mutation probability of 0 a turn
    of the refill loop whose draw is not 0.0 takes the breeding branch,
    which on two or more candidates calls breed once and mutate never; a
    loop whose draws are all different from 0.0 calls no strategy but
    the breeder.  With a mutation probability of 1 the loop calls no
    strategy but the mutator, whatever is drawn. *)
Theorem refill_branch_at_extremes :
  (forall sg st,
     mutate_probability (self st) == 0 ->
     (next_raw st mod two_53 <> 0)%N ->
     refill_step sg st = breed_branch sg (tick st))
  /\ (forall sg st,
        (2 <= length sg)%nat ->
        exists a b, new_events st (snd (breed_branch sg st)) = [EvBreed a b])
  /\ (forall turns sg st,
        mutate_probability (self st) == 0 ->
        (forall i, (tape (world st) i mod two_53 <> 0)%N) ->
        only_events is_breed st (snd (refill turns sg st)))
  /\ (forall turns sg st,
        mutate_probability (self st) == 1 ->
        only_events is_mutate st (snd (refill turns sg st))).
Proof.
  split; [exact refill_step_breeds |]. split; [| split].
  - intros sg st Hn.
    destruct (breed_branch_draws sg st Hn) as [i [j [a [b [_ [_ [_ [T _]]]]]]]].
    exists a, b. now apply new_events_app.
  - intros turns sg st Hp Ht. apply (refill_only_breeds turns sg st Hp Ht).
  - intros turns sg st Hp. apply (refill_only_mutates turns sg st Hp).
Qed.

Lemma refill_branch_at_extremes_witness :
  refill_step [Gene "A"; Gene "B"] (refill_state 0 (constant_tape 1))
    = breed_branch [Gene "A"; Gene "B"]
        (tick (refill_state 0 (constant_tape 1)))
  /\ (exists a b,
        new_events (refill_state 0 (constant_tape 1))
          (snd (breed_branch [Gene "A"; Gene "B"]
                  (refill_state 0 (constant_tape 1))))
        = [EvBreed a b])
  /\ only_events is_breed (refill_state 0 (constant_tape 1))
       (snd (refill (range 2) [Gene "A"; Gene "B"]
               (refill_state 0 (constant_tape 1))))
  /\ only_events is_mutate (refill_state 1 (constant_tape 0))
       (snd (refill (range 2) [Gene "A"; Gene "B"]
               (refill_state 1 (constant_tape 0)))).
Proof.
  split; [| split; [| split]].
  - apply (proj1 refill_branch_at_extremes).
    + reflexivity.
    + vm_compute. lia.
  - apply (proj1 (proj2 refill_branch_at_extremes)). simpl. lia.
  - apply (proj1 (proj2 (proj2 refill_branch_at_extremes))).
    + reflexivity.
    + intros i. vm_compute. lia.
  - apply (proj2 (proj2 (proj2 refill_branch_at_extremes))). reflexivity.
Defined.

(** C4 as stated fails: with a mutation probability of 0 and two
    survivors, a draw of exactly 0.0 passes the test [<=] and the turn
    calls mutate. *)
Lemma zero_draw_mutates :
  mutate_probability (self (refill_state 0 (constant_tape 0))) == 0
  /\ new_events (refill_state 0 (constant_tape 0))
       (snd (refill_step [Gene "A"; Gene "B"]
               (refill_state 0 (constant_tape 0))))
     = [EvMutate (Gene "A")].
Proof. split; reflexivity. Qed.

(** C5, as the code has it.  The breeding branch on a list of fewer than
    two candidates raises the [ValueError] of [random.sample], always
    and at once: no draw is read and the breeder is not called.  A turn
    whose draw is above the mutation probability therefore raises that
    error with nothing but its one draw consumed. *)
Theorem breeding_needs_two (sg : list Obj) (st : State) :
  (length sg < 2)%nat ->
  breed_branch sg st = (Raise ValueError, st)
  /\ (Qle_bool (unit_draw (next_raw st)) (mutate_probability (self st)) = false ->
      refill_step sg st = (Raise ValueError, tick st)).
Proof.
  intros Hn.
  assert (B : forall s, breed_branch sg s = (Raise ValueError, s)).
  { intros s. destruct sg as [|x [|y sg']]; try reflexivity. simpl in Hn. lia. }
  split; [apply B |].
  intros Hd. rewrite refill_step_unfold, Hd. apply B.
Qed.

Lemma breeding_needs_two_witness :
  breed_branch [Gene "A"] (refill_state 0 (constant_tape 1))
    = (Raise ValueError, refill_state 0 (constant_tape 1))
  /\ refill_step [Gene "A"] (refill_state 0 (constant_tape 1))
     = (Raise ValueError, tick (refill_state 0 (constant_tape 1))).
Proof.
  destruct (breeding_needs_two [Gene "A"] (refill_state 0 (constant_tape 1)))
    as [H1 H2].
  - simpl. lia.
  - split; [exact H1 | apply H2; reflexivity].
Defined.

(** C5 as stated fails.  With one survivor and a mutation probability of
    0 the refill raises [ValueError], the class [max] raises on an empty
    population too, not an error of its own; and when the first draw is
    0.0 the same configuration raises nothing at all: the turn mutates,
    and the next turn breeds the survivor with its own child. *)
Lemma one_survivor_outcomes :
  fst (refill (range 2) [Gene "A"] (refill_state 0 (constant_tape 1)))
    = Raise ValueError
  /\ exn_name ValueError <> "InsufficientSurvivorsError"%string
  /\ @py_max (Obj * Z) [] snd = inl ValueError
  /\ fst (refill (range 2) [Gene "A"]
            (refill_state 0 (tape_of [0; 0; 1; 0; 0]%N)))
     = Ok [Gene "A"; Gene "Am"; Gene "AAm"].
Proof.
  split; [reflexivity |]. split; [discriminate |].
  split; reflexivity.
Qed.

(** C6, as the code has it.  Construction raises [AssertionError],
    before any strategy is called, when [top_k] exceeds
    [num_organisms].  Every other pair of counts passes the guard, a
    [top_k] below 1 and a [num_organisms] of zero or less included: with
    a mutator that answers on the seed the object is built, holding
    [num_organisms] mutated seeds (none for a count below zero), no best
    gene, and the mutation probability 0.5, which is not an option of
    the constructor. *)
Theorem init_guard (N K : Z) (seed : Obj) (ev : Evaluator) (mu : Mutator)
    (br : Breeder) (sc : string) (w : World) :
  (N < K ->
   Population_init N seed ev mu br sc K w = (Raise AssertionError, w))
  /\ (K <= N ->
      (forall h, exists g, mutate mu h seed = inr g) ->
      exists p w',
        Population_init N seed ev mu br sc K w = (Ok p, w')
        /\ num_organisms p = N /\ topk p = K
        /\ mutate_probability p = 1 # 2
        /\ best_gene p = None /\ best_fitness p = sentinel
        /\ Z.of_nat (length (organisms p)) = Z.max 0 N
        /\ trace w' = trace w
                      ++ repeat (EvMutate seed) (length (organisms p))).
Proof.
  split.
  - intros H. unfold Population_init.
    destruct (K <=? N) eqn:E; [apply Z.leb_le in E; lia | reflexivity].
  - intros H Htot. unfold Population_init.
    destruct (K <=? N) eqn:E; [| apply Z.leb_gt in E; lia].
    set (this := {| num_organisms := N; evaluator := ev; mutator := mu;
                    breeder := br; selection_criteria := sc; topk := K;
                    organisms := []; best_gene := None;
                    best_fitness := sentinel;
                    mutate_probability := 1 # 2 |}).
    destruct (init_genes_total seed {| self := this; world := w |} Htot)
      as [l [st' [Hi [Hs [Hl [Hn _]]]]]].
    rewrite Hi. simpl in Hs, Hl.
    exists (set_mutate_probability (1 # 2) (set_best None sentinel (self st'))),
           (world st').
    rewrite Hs. simpl. repeat split; auto.
    destruct (stops_init_genes seed _ _ _ Hi) as [_ [new [T _]]].
    rewrite (new_events_app _ _ _ T) in Hn. simpl in T. now rewrite T, Hn.
Qed.

Lemma init_guard_witness :
  Population_init 3 (Gene "A") length_evaluator append_mutator
    concat_breeder "topk" 5 (quiet (constant_tape 0))
  = (Raise AssertionError, quiet (constant_tape 0))
  /\ exists p w',
       Population_init 3 (Gene "A") length_evaluator append_mutator
         concat_breeder "topk" 2 (quiet (constant_tape 0)) = (Ok p, w')
       /\ num_organisms p = 3 /\ topk p = 2
       /\ mutate_probability p = 1 # 2
       /\ best_gene p = None /\ best_fitness p = sentinel
       /\ Z.of_nat (length (organisms p)) = Z.max 0 3
       /\ trace w' = trace (quiet (constant_tape 0))
                     ++ repeat (EvMutate (Gene "A")) (length (organisms p)).
Proof.
  split.
  - apply (proj1 (init_guard 3 5 (Gene "A") length_evaluator append_mutator
                    concat_breeder "topk" (quiet (constant_tape 0)))).
    lia.
  - apply (proj2 (init_guard 3 2 (Gene "A") length_evaluator append_mutator
                    concat_breeder "topk" (quiet (constant_tape 0)))).
    + lia.
    + intros h. exists (Gene "Am"). reflexivity.
Defined.

(** C6 as stated fails: a survivor count of 0 with 3 organisms, and a
    population size of 0 or of -1, are accepted; the first of them goes
    on to call the mutator three times. *)
Lemma init_accepts_invalid_counts :
  (exists p w',
     Population_init 3 (Gene "A") length_evaluator append_mutator
       concat_breeder "topk" 0 (quiet (constant_tape 0)) = (Ok p, w')
     /\ topk p = 0
     /\ trace w' = [EvMutate (Gene "A"); EvMutate (Gene "A");
                    EvMutate (Gene "A")])
  /\ (exists p w',
        Population_init 0 (Gene "A") length_evaluator append_mutator
          concat_breeder "topk" 0 (quiet (constant_tape 0)) = (Ok p, w')
        /\ organisms p = [])
  /\ (exists p w',
        Population_init (-1) (Gene "A") length_evaluator append_mutator
          concat_breeder "topk" (-2) (quiet (constant_tape 0)) = (Ok p, w')
        /\ num_organisms p = -1 /\ topk p = -2).
Proof.
  split; [| split]; eexists; eexists; repeat split; reflexivity.
Qed.

(** C7, as the code has it.  A turn draws from the list as it stands,
    which over the loop is the list the loop began with followed by the
    children the turns before it appended.
    - The mutation source is the candidate at the position its draw
      selects below the current length, and each position is selected by
      exactly one draw below that length.
    - The parents are the candidates at the two positions
      [random.sample] draws, always two different ones.  On a list of at
      most 21 the first is selected by a draw below the length and the
      second by a draw below the length less one, and each ordered pair
      of different positions is selected by exactly one such pair of
      draws.  On a longer list the first is selected by a draw below the
      length, and the second is the first later draw that selects
      another position. *)
Theorem refill_draws_from_current_list :
  (forall sg st,
     (0 < length sg)%nat ->
     exists g,
       nth_error sg (position_below (length sg) (next_raw st)) = Some g
       /\ new_events st (snd (mutate_branch sg st)) = [EvMutate g])
  /\ (forall n i,
        (i < n)%nat ->
        position_below n (N.of_nat i) = i
        /\ forall r, (r < N.of_nat n)%N -> position_below n r = i ->
                     r = N.of_nat i)
  /\ (forall sg st,
        (2 <= length sg)%nat ->
        exists i j a b st1,
          sample_positions (length sg) st = (Ok (i, j), st1)
          /\ i <> j /\ nth_error sg i = Some a /\ nth_error sg j = Some b
          /\ new_events st (snd (breed_branch sg st)) = [EvBreed a b])
  /\ (forall n st,
        (2 <= n <= pool_limit)%nat ->
        sample_positions n st
        = (Ok (position_below n (next_raw st),
               second_position n (position_below n (next_raw st))
                 (position_below (Nat.pred n) (next_raw (tick st)))),
           tick (tick st)))
  /\ (forall n a b,
        (a < n)%nat -> (b < n)%nat -> a <> b ->
        exists j,
          (j < Nat.pred n)%nat /\ second_position n a j = b
          /\ forall j', (j' < Nat.pred n)%nat ->
                        second_position n a j' = b -> j' = j)
  /\ (forall n st m j,
        (pool_limit < n)%nat -> (m < redraw_limit)%nat ->
        (forall k, (k < m)%nat ->
           position_below n (next_raw (ticks (S k) st))
           = position_below n (next_raw st)) ->
        position_below n (next_raw (ticks (S m) st)) = j ->
        j <> position_below n (next_raw st) ->
        sample_positions n st
        = (Ok (position_below n (next_raw st), j), ticks (S (S m)) st))
  /\ (forall turns sg l st st',
        refill turns sg st = (Ok l, st') ->
        exists offspring,
          l = sg ++ offspring
          /\ length offspring = length turns
          /\ turns_draw_from sg offspring (new_events st st')).
Proof.
  split; [| split; [| split; [| split; [| split; [| split]]]]].
  - intros sg st Hn.
    destruct (mutate_branch_draws sg st Hn) as [g [Hg [T _]]].
    exists g. split; [exact Hg | now apply new_events_app].
  - intros n i Hi. split; [now apply position_below_reached |].
    intros r Hr Hp. unfold position_below in Hp.
    rewrite N.mod_small in Hp by exact Hr. lia.
  - intros sg st Hn.
    destruct (breed_branch_event sg st)
      as [[E _] | [i [j [a [b [st1 [E [Hij [Ha [Hb [_ [Ht [Hs _]]]]]]]]]]]]];
      [lia |].
    exists i, j, a, b, st1. repeat split; auto.
    apply new_events_app. rewrite Hs. simpl. now rewrite Ht.
  - intros n st [Hn Hp]. rewrite sample_positions_unfold.
    apply Nat.leb_le in Hp. now rewrite Hp.
  - intros n a b Ha Hb Hab.
    destruct (second_position_reached n a b Ha Hb Hab) as [j [Hj Hs]].
    exists j. split; [exact Hj |]. split; [exact Hs |].
    intros j' Hj' Hs'. unfold second_position in Hs, Hs'.
    destruct (Nat.eqb_spec j a); destruct (Nat.eqb_spec j' a); lia.
  - intros n st m j Hn Hm Hsame Hj Hd.
    rewrite sample_positions_unfold.
    assert (Hp : (n <=? pool_limit)%nat = false) by (apply Nat.leb_gt; lia).
    rewrite Hp.
    rewrite (redraw_exact redraw_limit m n
               (position_below n (next_raw st)) (tick st) j Hm Hsame Hj Hd).
    reflexivity.
  - intros turns. apply refill_draws.
Qed.

Lemma refill_draws_from_current_list_witness :
  (exists g,
     nth_error [Gene "A"; Gene "B"]
       (position_below 2 (next_raw (refill_state 1 (constant_tape 3))))
     = Some g
     /\ new_events (refill_state 1 (constant_tape 3))
          (snd (mutate_branch [Gene "A"; Gene "B"]
                  (refill_state 1 (constant_tape 3))))
        = [EvMutate g])
  /\ (exists i j a b st1,
        sample_positions 3 (refill_state 0 (constant_tape 1))
        = (Ok (i, j), st1)
        /\ i <> j
        /\ nth_error [Gene "A"; Gene "B"; Gene "Am"] i = Some a
        /\ nth_error [Gene "A"; Gene "B"; Gene "Am"] j = Some b
        /\ new_events (refill_state 0 (constant_tape 1))
             (snd (breed_branch [Gene "A"; Gene "B"; Gene "Am"]
                     (refill_state 0 (constant_tape 1))))
           = [EvBreed a b])
  /\ sample_positions 3 (refill_state 0 (constant_tape 1))
     = (Ok (1%nat, 2%nat), tick (tick (refill_state 0 (constant_tape 1))))
  /\ sample_positions 22 colliding_state
     = (Ok (5%nat, 7%nat), ticks 4 colliding_state)
  /\ (exists offspring,
        [Gene "A"; Gene "B"; Gene "Am"; Gene "BAm"]
        = [Gene "A"; Gene "B"] ++ offspring
        /\ length offspring = length (range 2)
        /\ turns_draw_from [Gene "A"; Gene "B"] offspring
             (new_events breeding_refill_state
                (snd (refill (range 2) [Gene "A"; Gene "B"]
                        breeding_refill_state)))).
Proof.
  split; [| split; [| split; [| split]]].
  - apply (proj1 refill_draws_from_current_list). simpl. lia.
  - apply (proj1 (proj2 (proj2 refill_draws_from_current_list))
             [Gene "A"; Gene "B"; Gene "Am"]).
    simpl. lia.
  - apply (proj1 (proj2 (proj2 (proj2 refill_draws_from_current_list)))
             3%nat (refill_state 0 (constant_tape 1))).
    unfold pool_limit. lia.
  - apply (proj1 (proj2 (proj2 (proj2 (proj2 (proj2
             refill_draws_from_current_list)))))
             22%nat colliding_state 2%nat 7%nat).
    + unfold pool_limit. lia.
    + unfold redraw_limit. lia.
    + intros k Hk. destruct k as [|[|k]]; [reflexivity | reflexivity | lia].
    + reflexivity.
    + vm_compute. lia.
  - apply (proj2 (proj2 (proj2 (proj2 (proj2 (proj2
             refill_draws_from_current_list)))))
             (range 2) [Gene "A"; Gene "B"]
             [Gene "A"; Gene "B"; Gene "Am"; Gene "BAm"]
             breeding_refill_state).
    reflexivity.
Defined.

(** C7 as stated fails: a child appended by an earlier turn is drawn
    by a later one.  With survivors A and B the first turn mutates A
    into Am, and the second, drawing position 2, mutates Am, which is
    no survivor; on another tape the second turn breeds B with Am. *)
Lemma offspring_is_drawn :
  (new_events (refill_state 1 (tape_of [0; 0; 0; 2]%N))
     (snd (refill (range 2) [Gene "A"; Gene "B"]
             (refill_state 1 (tape_of [0; 0; 0; 2]%N))))
   = [EvMutate (Gene "A"); EvMutate (Gene "Am")]
   /\ new_events breeding_refill_state
        (snd (refill (range 2) [Gene "A"; Gene "B"] breeding_refill_state))
      = [EvMutate (Gene "A"); EvBreed (Gene "B") (Gene "Am")])
  /\ ~ In (Gene "Am") [Gene "A"; Gene "B"].
Proof.
  split; [split; reflexivity |].
  intros [H | [H | H]]; try discriminate. exact H.
Qed.

(** C8. A strategy call that raises ends the run there: in any call of
    [run_generations], if a recorded evaluate, mutate or breed call
    raised, then what it raised is what [run_generations] raises, nothing
    happens after it (no retry, no further generation), and the best gene
    and best fitness are those the object had when the call began.  The
    same holds inside the refill loop, which leaves the whole object as
    it was. *)
Theorem strategy_failure_aborts_run :
  (forall n sp st r st',
     run_generations n sp st = (r, st') ->
     forall pre ev post e,
       new_events st st' = pre ++ ev :: post ->
       call_raised (self st) (trace (world st) ++ pre) ev = Some e ->
       r = Raise e /\ post = []
       /\ best_gene (self st') = best_gene (self st)
       /\ best_fitness (self st') = best_fitness (self st))
  /\ (forall turns sg st r st',
        refill turns sg st = (r, st') ->
        forall pre ev post e,
          new_events st st' = pre ++ ev :: post ->
          call_raised (self st) (trace (world st) ++ pre) ev = Some e ->
          r = Raise e /\ post = [] /\ self st' = self st).
Proof.
  split.
  - intros n sp st r st' H pre ev post e Hd Hc.
    destruct (stops_run_generations n sp st r st' H) as [_ [new [T F]]].
    rewrite (new_events_app _ _ _ T) in Hd.
    destruct (F _ _ _ _ Hd Hc) as [Hr Hp].
    split; [exact Hr |]. split; [exact Hp |].
    destruct n as [| n | n].
    + rewrite run_generations_nonpos in H by lia. inversion H; subst. auto.
    + destruct (run_generations_pos n sp st) as [e0 E].
      rewrite E in H. inversion H; subst r st'. clear H.
      destruct (generation_best 0 st)
        as [Hs | [gf [st2 [best [Ev [Hm [Hlt Hs]]]]]]].
      * rewrite Hs. auto.
      * exfalso.
        assert (S2 : stops_at_failure
                       (bind (print 0)
                             (fun _ => evaluate_all (organisms (self st))))).
        { apply stops_bind; [apply stops_print |].
          intros _. apply stops_evaluate_all. }
        destruct (S2 st (Ok gf) st2) as [_ [new2 [T2 F2]]].
        { unfold bind. simpl. exact Ev. }
        assert (W : trace (world (snd (generation 0 st))) = trace (world st2)).
        { rewrite generation_unfold, Ev, Hm. simpl. unfold record_best.
          destruct (_ >? _); reflexivity. }
        rewrite W, T2 in T. apply app_inv_head in T. subst new2.
        destruct (F2 _ _ _ _ Hd Hc) as [Habs _]. discriminate.
    + rewrite run_generations_nonpos in H by lia. inversion H; subst. auto.
  - intros turns sg st r st' H pre ev post e Hd Hc.
    destruct (stops_refill turns sg st r st' H) as [_ [new [T F]]].
    rewrite (new_events_app _ _ _ T) in Hd.
    destruct (F _ _ _ _ Hd Hc) as [Hr Hp].
    split; [exact Hr |]. split; [exact Hp |].
    pose proof (refill_self turns sg st) as Hs. rewrite H in Hs. exact Hs.
Qed.

Lemma strategy_failure_aborts_run_witness :
  (fst (run_generations 2 false failing_run_state)
     = Raise (Raised "evaluation failed")
   /\ @nil Event = []
   /\ best_gene (self (snd (run_generations 2 false failing_run_state)))
      = Some (Gene "Z")
   /\ best_fitness (self (snd (run_generations 2 false failing_run_state)))
      = 1)
  /\ (fst (refill (range 3) [Gene "A"; Gene "B"] failing_refill_state)
        = Raise (Raised "breeding failed")
      /\ @nil Event = []
      /\ self (snd (refill (range 3) [Gene "A"; Gene "B"] failing_refill_state))
         = self failing_refill_state).
Proof.
  split.
  - apply (proj1 strategy_failure_aborts_run 2 false failing_run_state
             (fst (run_generations 2 false failing_run_state))
             (snd (run_generations 2 false failing_run_state))
             eq_refl
             [EvPrint 0; EvEvaluate (Gene "B")] (EvEvaluate (Gene "Am")) []
             (Raised "evaluation failed")).
    + reflexivity.
    + reflexivity.
  - apply (proj2 strategy_failure_aborts_run (range 3) [Gene "A"; Gene "B"]
             failing_refill_state
             (fst (refill (range 3) [Gene "A"; Gene "B"] failing_refill_state))
             (snd (refill (range 3) [Gene "A"; Gene "B"] failing_refill_state))
             eq_refl
             [EvMutate (Gene "A")] (EvBreed (Gene "B") (Gene "Am")) []
             (Raised "breeding failed")).
    + reflexivity.
    + reflexivity.
Defined.

(** C9. With a mutator that answers on the seed, [init_genes] makes
    the organisms of the object exactly [num_organisms] candidates (none
    for a count below zero): the list of the answers to as many mutate
    calls, in order, each call having the seed itself as argument, never
    a candidate made before it.  The former organisms are dropped and
    every other attribute of the object is as it was. *)
Theorem init_genes_mutates_seed (seed : Obj) (st : State) :
  (forall h, exists g, mutate (mutator (self st)) h seed = inr g) ->
  exists st',
    init_genes seed st = (Ok tt, st')
    /\ Z.of_nat (length (organisms (self st')))
       = Z.max 0 (num_organisms (self st))
    /\ (forall i g, nth_error (organisms (self st')) i = Some g ->
          mutate (mutator (self st))
                 (trace (world st) ++ repeat (EvMutate seed) i) seed = inr g)
    /\ new_events st st'
       = repeat (EvMutate seed) (length (organisms (self st')))
    /\ num_organisms (self st') = num_organisms (self st)
    /\ topk (self st') = topk (self st)
    /\ evaluator (self st') = evaluator (self st)
    /\ mutator (self st') = mutator (self st)
    /\ breeder (self st') = breeder (self st)
    /\ selection_criteria (self st') = selection_criteria (self st)
    /\ best_gene (self st') = best_gene (self st)
    /\ best_fitness (self st') = best_fitness (self st)
    /\ mutate_probability (self st') = mutate_probability (self st).
Proof.
  intros Htot.
  destruct (init_genes_total seed st Htot) as [l [st' [Hi [Hs [Hl [He Hn]]]]]].
  exists st'. rewrite Hs. simpl.
  split; [exact Hi |]. split; [exact Hl |]. split; [exact Hn |].
  split; [exact He |]. repeat split.
Qed.

Lemma init_genes_mutates_seed_witness :
  exists st',
    init_genes (Gene "A") initial_state_example = (Ok tt, st')
    /\ Z.of_nat (length (organisms (self st'))) = Z.max 0 3
    /\ (forall i g, nth_error (organisms (self st')) i = Some g ->
          mutate append_mutator
                 ([] ++ repeat (EvMutate (Gene "A")) i) (Gene "A") = inr g)
    /\ new_events initial_state_example st'
       = repeat (EvMutate (Gene "A")) (length (organisms (self st')))
    /\ num_organisms (self st') = 3
    /\ topk (self st') = 2
    /\ evaluator (self st') = length_evaluator
    /\ mutator (self st') = append_mutator
    /\ breeder (self st') = concat_breeder
    /\ selection_criteria (self st') = "topk"%string
    /\ best_gene (self st') = None
    /\ best_fitness (self st') = sentinel
    /\ mutate_probability (self st') = 1 # 2.
Proof.
  apply (init_genes_mutates_seed (Gene "A") initial_state_example).
  intros h. exists (Gene "Am"). reflexivity.
Defined.

(** The organisms [init_genes] leaves in that example: three mutated
    seeds in place of the one former organism. *)
Lemma init_genes_example :
  organisms (self (snd (init_genes (Gene "A") initial_state_example)))
  = [Gene "Am"; Gene "Am"; Gene "Am"].
Proof. reflexivity. Qed.

(** C10. [run_generations] with a count of zero returns the current
    organisms and changes nothing: not the object, not the random
    source, and no strategy is called and nothing is printed. *)
Theorem run_zero_generations (sp : bool) (st : State) :
  run_generations 0 sp st = (Ok (organisms (self st)), st).
Proof. apply run_generations_nonpos. lia. Qed.

(** * Further properties of the code *)

(** ** Initialisation, whatever the mutator answers *)

Lemma repeat_snoc {A} (x : A) (k : nat) : [x] ++ repeat x k = repeat x (S k).
Proof. reflexivity. Qed.

Lemma mutate_each_any (seed : Obj) (its : list nat) :
  forall st r st',
    mapM (fun _ => call_mutate seed) its st = (r, st') ->
    self st' = self st /\ same_random st st'
    /\ exists k,
         (k <= length its)%nat
         /\ trace (world st')
            = trace (world st) ++ repeat (EvMutate seed) k
         /\ (forall l, r = Ok l -> k = length its /\ length l = length its)
         /\ (forall e, r = Raise e ->
               exists j, k = S j
                 /\ mutate (mutator (self st))
                      (trace (world st) ++ repeat (EvMutate seed) j) seed
                    = inl e).
Proof.
  induction its as [|t its IH]; intros st r st' H; simpl in H.
  - inversion H; subst. split; [reflexivity |]. split; [split; reflexivity |].
    exists 0%nat. simpl. rewrite app_nil_r.
    split; [lia |]. split; [reflexivity |]. split.
    + intros l Hl. inversion Hl; subst. auto.
    + intros e He. discriminate.
  - unfold bind in H. unfold call_mutate at 1 in H.
    destruct (mutate (mutator (self st)) (trace (world st)) seed)
      as [e0 | g0] eqn:E0.
    + inversion H; subst. simpl.
      split; [reflexivity |]. split; [split; reflexivity |].
      exists 1%nat. simpl.
      split; [lia |]. split; [reflexivity |]. split.
      * intros l Hl. discriminate.
      * intros e He. inversion He; subst. exists 0%nat.
        simpl. rewrite app_nil_r. auto.
    + set (st1 := {| self := self st;
                     world := log (EvMutate seed) (world st) |}) in *.
      destruct (mapM (fun _ => call_mutate seed) its st1)
        as [[l | e] st2] eqn:Em.
      * destruct (IH st1 _ _ Em) as [Hs [[Ht Hc] [k [Hk [Htr [Hok _]]]]]].
        unfold ret in H. inversion H; subst r st'. clear H.
        destruct (Hok l eq_refl) as [Ek El].
        split; [exact Hs |]. split; [split; assumption |].
        exists (S k). simpl in *.
        split; [lia |]. split; [| split].
        -- rewrite Htr, <- app_assoc. reflexivity.
        -- intros l' Hl'. inversion Hl'; subst. simpl. lia.
        -- intros e He. discriminate.
      * destruct (IH st1 _ _ Em) as [Hs [[Ht Hc] [k [Hk [Htr [_ Hfail]]]]]].
        inversion H; subst r st'. clear H.
        destruct (Hfail e eq_refl) as [j [Ej Hj]].
        split; [exact Hs |]. split; [split; assumption |].
        exists (S k). simpl in *.
        split; [lia |]. split; [| split].
        -- rewrite Htr, <- app_assoc. reflexivity.
        -- intros l' Hl'. discriminate.
        -- intros e' He'. inversion He'; subst e'. exists (S j).
           split; [lia |]. rewrite <- app_assoc in Hj. exact Hj.
Qed.

Lemma init_genes_any (seed : Obj) (st : State) (r : Outcome unit) (st' : State) :
  init_genes seed st = (r, st') ->
  same_random st st'
  /\ exists k,
       (k <= Z.to_nat (num_organisms (self st)))%nat
       /\ trace (world st') = trace (world st) ++ repeat (EvMutate seed) k
       /\ (r = Ok tt ->
           exists l, self st' = set_organisms l (self st)
                     /\ length l = Z.to_nat (num_organisms (self st)))
       /\ (forall e, r = Raise e ->
             self st' = self st
             /\ exists j, k = S j
                  /\ mutate (mutator (self st))
                       (trace (world st) ++ repeat (EvMutate seed) j) seed
                     = inl e).
Proof.
  unfold init_genes, bind, get_self, modify_self. intros H.
  destruct (mapM (fun _ => call_mutate seed)
                 (range (num_organisms (self st))) st)
    as [[l | e0] st1] eqn:Em;
    destruct (mutate_each_any seed _ _ _ _ Em)
      as [Hs [Hr [k [Hk [Htr [Hok Hfail]]]]]];
    unfold range in Hk; rewrite length_seq in Hk;
    inversion H; subst r st'; clear H.
  - destruct (Hok l eq_refl) as [_ Hl].
    unfold range in Hl. rewrite length_seq in Hl.
    split; [exact Hr |]. exists k. simpl.
    split; [exact Hk |]. split; [exact Htr |]. split.
    + intros _. exists l. rewrite Hs. auto.
    + intros e He. discriminate.
  - split; [exact Hr |]. exists k.
    split; [exact Hk |]. split; [exact Htr |]. split.
    + intros He. discriminate.
    + intros e He. inversion He; subst e0. split; [exact Hs |].
      apply Hfail. reflexivity.
Qed.

(** X1. When a mutate call raises during [init_genes], the exception
    raised is that call's, the call is the last one made, and the
    object is as it was: the organisms keep their former list (the
    answers already obtained are dropped) and the random source is not
    read. *)
Theorem init_genes_failure_keeps_organisms
    (seed : Obj) (st : State) (e : Exn) (st' : State) :
  init_genes seed st = (Raise e, st') ->
  self st' = self st
  /\ same_random st st'
  /\ exists j,
       (j < Z.to_nat (num_organisms (self st)))%nat
       /\ new_events st st' = repeat (EvMutate seed) (S j)
       /\ mutate (mutator (self st))
            (trace (world st) ++ repeat (EvMutate seed) j) seed = inl e.
Proof.
  intros H.
  destruct (init_genes_any seed st _ _ H) as [Hr [k [Hk [Htr [_ Hfail]]]]].
  destruct (Hfail e eq_refl) as [Hs [j [Ej Hj]]].
  split; [exact Hs |]. split; [exact Hr |].
  exists j. split; [lia |]. split; [| exact Hj].
  apply new_events_app. now rewrite Htr, Ej.
Qed.

Lemma init_genes_failure_keeps_organisms_witness :
  self (snd (init_genes (Gene "A") failing_init_state))
    = self failing_init_state
  /\ same_random failing_init_state
       (snd (init_genes (Gene "A") failing_init_state))
  /\ exists j,
       (j < Z.to_nat 3)%nat
       /\ new_events failing_init_state
            (snd (init_genes (Gene "A") failing_init_state))
          = repeat (EvMutate (Gene "A")) (S j)
       /\ mutate third_call_fails
            ([] ++ repeat (EvMutate (Gene "A")) j) (Gene "A")
          = inl (Raised "mutation failed").
Proof.
  apply (init_genes_failure_keeps_organisms (Gene "A") failing_init_state
           (Raised "mutation failed")
           (snd (init_genes (Gene "A") failing_init_state))).
  reflexivity.
Defined.

(** X2. Construction calls no strategy but the mutator, always on the
    seed and at most [num_organisms] times, and does not read the
    random source, whether it returns an object or raises. *)
Theorem init_calls_only_mutator (N K : Z) (seed : Obj) (ev : Evaluator)
    (mu : Mutator) (br : Breeder) (sc : string) (w : World) :
  exists k,
    Z.of_nat k <= Z.max 0 N
    /\ trace (snd (Population_init N seed ev mu br sc K w))
       = trace w ++ repeat (EvMutate seed) k
    /\ tape (snd (Population_init N seed ev mu br sc K w)) = tape w
    /\ cursor (snd (Population_init N seed ev mu br sc K w)) = cursor w.
Proof.
  unfold Population_init. destruct (K <=? N).
  - set (this := {| num_organisms := N; evaluator := ev; mutator := mu;
                    breeder := br; selection_criteria := sc; topk := K;
                    organisms := []; best_gene := None;
                    best_fitness := sentinel;
                    mutate_probability := 1 # 2 |}).
    destruct (init_genes seed {| self := this; world := w |})
      as [r st'] eqn:Ei.
    destruct (init_genes_any seed _ _ _ Ei) as [[Ht Hc] [k [Hk [Htr _]]]].
    simpl in Hk, Htr, Ht, Hc.
    exists k. destruct r as [u | e]; simpl; repeat split; auto; lia.
  - exists 0%nat. simpl. rewrite app_nil_r. repeat split; lia.
Qed.

(** X3. Construction raises in two cases only: the guard, with
    [AssertionError] and the world untouched, when [top_k] exceeds
    [num_organisms]; and a mutate call on the seed that raised, whose
    exception comes out as it is, that call being the last. *)
Theorem init_failure_sources (N K : Z) (seed : Obj) (ev : Evaluator)
    (mu : Mutator) (br : Breeder) (sc : string) (w w' : World) (e : Exn) :
  Population_init N seed ev mu br sc K w = (Raise e, w') ->
  (N < K /\ e = AssertionError /\ w' = w)
  \/ (K <= N
      /\ exists j,
           Z.of_nat j < N
           /\ trace w' = trace w ++ repeat (EvMutate seed) (S j)
           /\ mutate mu (trace w ++ repeat (EvMutate seed) j) seed = inl e).
Proof.
  unfold Population_init. destruct (K <=? N) eqn:E.
  - apply Z.leb_le in E.
    set (this := {| num_organisms := N; evaluator := ev; mutator := mu;
                    breeder := br; selection_criteria := sc; topk := K;
                    organisms := []; best_gene := None;
                    best_fitness := sentinel;
                    mutate_probability := 1 # 2 |}).
    destruct (init_genes seed {| self := this; world := w |})
      as [r st'] eqn:Ei.
    destruct (init_genes_any seed _ _ _ Ei) as [_ [k [Hk [Htr [_ Hfail]]]]].
    destruct r as [u | e0]; intros H; inversion H; subst e0 w'. clear H.
    destruct (Hfail e eq_refl) as [_ [j [Ej Hj]]].
    simpl in Hk, Htr, Hj.
    right. split; [exact E |]. exists j.
    split; [lia |]. split; [now rewrite Htr, Ej | exact Hj].
  - apply Z.leb_gt in E. intros H. inversion H; subst.
    left. auto.
Qed.

Lemma init_failure_sources_witness :
  (3 < 5 /\ AssertionError = AssertionError
   /\ quiet (constant_tape 0) = quiet (constant_tape 0))
  \/ (5 <= 3
      /\ exists j,
           Z.of_nat j < 3
           /\ trace (quiet (constant_tape 0))
              = trace (quiet (constant_tape 0))
                ++ repeat (EvMutate (Gene "A")) (S j)
           /\ mutate append_mutator
                (trace (quiet (constant_tape 0))
                 ++ repeat (EvMutate (Gene "A")) j) (Gene "A")
              = inl AssertionError).
Proof.
  apply (init_failure_sources 3 5 (Gene "A") length_evaluator append_mutator
           concat_breeder "topk" (quiet (constant_tape 0))).
  reflexivity.
Defined.

(** ** What [max] picks *)

Lemma max_from_first {A} (key : A -> Z) (l : list A) :
  forall b,
    exists pre post,
      b :: l = pre ++ max_from key b l :: post
      /\ Forall (fun x => key x < key (max_from key b l)) pre
      /\ Forall (fun x => key x <= key (max_from key b l)) post.
Proof.
  induction l as [|x l IH]; intros b; simpl.
  - exists [], []. repeat split; constructor.
  - destruct (key x >? key b) eqn:E.
    + apply Z.gtb_lt in E.
      destruct (IH x) as [pre [post [Hd [Hpre Hpost]]]].
      remember (max_from key x l) as m eqn:Em. clear Em IH.
      exists (b :: pre), post. split; [simpl; now rewrite Hd |].
      split; [| exact Hpost].
      constructor; [| exact Hpre].
      destruct pre as [|y pre]; simpl in Hd; inversion Hd.
      * rewrite <- H0. exact E.
      * inversion Hpre as [| ? ? Hy Hp]. rewrite H0 in E. lia.
    + assert (E' : key x <= key b).
      { destruct (Z.gtb_spec (key x) (key b)); [discriminate | lia]. }
      destruct (IH b) as [pre [post [Hd [Hpre Hpost]]]].
      remember (max_from key b l) as m eqn:Em. clear Em IH.
      destruct pre as [|y pre]; simpl in Hd; inversion Hd.
      * exists [], (x :: post). split; [reflexivity |].
        split; [constructor |].
        constructor; [rewrite <- H0; exact E' | exact Hpost].
      * exists (y :: x :: pre), post.
        split; [reflexivity |].
        split; [| exact Hpost].
        inversion Hpre as [| ? ? Hy Hp]. rewrite H0 in E'.
        constructor; [exact Hy |]. constructor; [lia | exact Hp].
Qed.

Lemma py_max_first {A} (key : A -> Z) (l : list A) (b : A) :
  py_max l key = inr b ->
  exists pre post,
    l = pre ++ b :: post
    /\ Forall (fun x => key x < key b) pre
    /\ Forall (fun x => key x <= key b) post.
Proof.
  destruct l as [|x l]; simpl; intros H; [discriminate |].
  inversion H; subst. apply max_from_first.
Qed.

Lemma run_generations_pos_exn (n : positive) (sp : bool) (st : State) (e : Exn) :
  fst (generation 0 st) = Raise e ->
  run_generations (Z.pos n) sp st = (Raise e, snd (generation 0 st)).
Proof.
  intros He. destruct (run_generations_pos n sp st) as [e' E]. rewrite E.
  unfold run_generations, tqdm in E.
  destruct (range_pos n) as [k Hk].
  assert (R : (if sp then range (Z.pos n) else range (Z.pos n))
              = 0%nat :: seq 1 k) by (destruct sp; exact Hk).
  rewrite R in E. unfold bind in E. simpl in E. unfold bind in E.
  destruct (generation 0 st) as [[u | e0] st1]; simpl in *.
  - discriminate.
  - inversion He; subst. inversion E; subst. reflexivity.
Qed.

(** ** A call of [run_generations], step by step *)

Lemma record_best_world (b : Obj * Z) (st : State) :
  world (record_best b st) = world st.
Proof. unfold record_best. destruct (_ >? _); reflexivity. Qed.

Lemma run_generations_pos_state (n : positive) (sp : bool) (st : State) :
  snd (run_generations (Z.pos n) sp st) = snd (generation 0 st).
Proof. destruct (run_generations_pos n sp st) as [e E]. now rewrite E. Qed.

Lemma evaluate_all_total (genes : list Obj) (st : State) :
  (forall h g, In g genes ->
     exists f, evaluate (evaluator (self st)) h g = inr f) ->
  exists gf st2,
    evaluate_all genes st = (Ok gf, st2)
    /\ self st2 = self st /\ same_random st st2
    /\ trace (world st2) = trace (world st) ++ map EvEvaluate genes
    /\ map fst gf = genes
    /\ forall i g f, nth_error gf i = Some (g, f) ->
         evaluate (evaluator (self st))
           (trace (world st) ++ map EvEvaluate (firstn i genes)) g = inr f.
Proof.
  intros Htot.
  destruct (evaluate_all genes st) as [r st2] eqn:E.
  destruct (evaluate_all_any genes st r st2 E)
    as [Hs [Hr [k [Hk [Htr [Hok Hfail]]]]]].
  destruct r as [gf | e].
  - destruct (Hok gf eq_refl) as [Ek [Hm Hn]].
    exists gf, st2. repeat split; auto; try apply Hr.
    rewrite Htr, Ek, firstn_all. reflexivity.
  - exfalso. destruct (Hfail e eq_refl) as [j [g [_ [Hg Hj]]]].
    destruct (Htot (trace (world st) ++ map EvEvaluate (firstn j genes)) g
                (nth_error_In _ _ Hg)) as [f Hf].
    congruence.
Qed.

(** With an evaluator that answers on every organism of a non-empty
    population, a generation is: print, evaluate all, take the maximum,
    record it, and raise in [kill_the_weak]. *)
Lemma generation_total (g : nat) (st : State) :
  organisms (self st) <> [] ->
  (forall h x, In x (organisms (self st)) ->
     exists f, evaluate (evaluator (self st)) h x = inr f) ->
  exists gf st2 b,
    evaluate_all (organisms (self st)) (snd (print g st)) = (Ok gf, st2)
    /\ py_max gf snd = inr b
    /\ generation g st = (Raise TypeError, record_best b st2)
    /\ self st2 = self st /\ same_random st st2
    /\ trace (world st2)
       = trace (world st) ++ EvPrint g :: map EvEvaluate (organisms (self st))
    /\ map fst gf = organisms (self st)
    /\ forall i x f, nth_error gf i = Some (x, f) ->
         evaluate (evaluator (self st))
           (trace (world st)
            ++ EvPrint g :: map EvEvaluate (firstn i (organisms (self st)))) x
         = inr f.
Proof.
  intros Hne Htot.
  destruct (evaluate_all_total (organisms (self st)) (snd (print g st)) Htot)
    as [gf [st2 [E [Hs [Hr [Htr [Hm Hn]]]]]]].
  simpl in Hs, Hr, Htr, Hn.
  destruct gf as [|p gf'] eqn:Egf.
  { simpl in Hm. congruence. }
  exists (p :: gf'), st2, (max_from snd p gf').
  rewrite generation_unfold, E. simpl.
  repeat split; auto; try apply Hr.
  - rewrite Htr, <- app_assoc. reflexivity.
  - intros i x f Hi. specialize (Hn i x f Hi).
    rewrite <- app_assoc in Hn. exact Hn.
Qed.

Lemma generation_random (g : nat) (st : State) :
  same_random st (snd (generation g st)).
Proof.
  rewrite generation_unfold.
  destruct (evaluate_all (organisms (self st)) (snd (print g st)))
    as [r st2] eqn:E.
  destruct (evaluate_all_any _ _ _ _ E) as [_ [Hr _]].
  assert (G : same_random st st2) by exact Hr.
  destruct r as [gf | e]; simpl; auto.
  destruct (py_max gf snd); simpl; auto.
  unfold same_random. rewrite record_best_world. exact G.
Qed.

(** X4. On an empty population a call of [run_generations] with a
    positive count prints the line of generation 0 and raises the
    [ValueError] of [max]; no strategy is called and the object is
    unchanged. *)
Theorem empty_population_raises (n : positive) (sp : bool) (st : State) :
  organisms (self st) = [] ->
  run_generations (Z.pos n) sp st
  = (Raise ValueError,
     {| self := self st; world := log (EvPrint 0) (world st) |}).
Proof.
  intros H.
  assert (G : generation 0 st
              = (Raise ValueError,
                 {| self := self st; world := log (EvPrint 0) (world st) |})).
  { rewrite generation_unfold, H. reflexivity. }
  rewrite (run_generations_pos_exn n sp st ValueError); rewrite G; reflexivity.
Qed.

Lemma empty_population_raises_witness :
  run_generations 3 true
    {| self := sample_population 0 0 [] (1 # 2);
       world := quiet (constant_tape 0) |}
  = (Raise ValueError,
     {| self := sample_population 0 0 [] (1 # 2);
        world := log (EvPrint 0) (quiet (constant_tape 0)) |}).
Proof.
  apply (empty_population_raises 3 true
           {| self := sample_population 0 0 [] (1 # 2);
              world := quiet (constant_tape 0) |}).
  reflexivity.
Defined.

(** The pass stops at the first evaluation that raises. *)
Lemma evaluate_all_stops (genes : list Obj) :
  forall st r st',
    evaluate_all genes st = (r, st') ->
    exists k,
      (k <= length genes)%nat
      /\ trace (world st')
         = trace (world st) ++ map EvEvaluate (firstn k genes)
      /\ (forall i g, nth_error genes i = Some g -> (S i < k)%nat ->
            exists f,
              evaluate (evaluator (self st))
                (trace (world st) ++ map EvEvaluate (firstn i genes)) g
              = inr f)
      /\ ((k = length genes
           /\ (forall i g, nth_error genes i = Some g ->
                 exists f,
                   evaluate (evaluator (self st))
                     (trace (world st) ++ map EvEvaluate (firstn i genes)) g
                   = inr f)
           /\ exists gf, r = Ok gf)
          \/ (exists j g e,
                k = S j /\ nth_error genes j = Some g
                /\ evaluate (evaluator (self st))
                     (trace (world st) ++ map EvEvaluate (firstn j genes)) g
                   = inl e
                /\ r = Raise e)).
Proof.
  induction genes as [|g genes IH]; intros st r st' H.
  - inversion H; subst. exists 0%nat. simpl. rewrite app_nil_r.
    split; [lia |]. split; [reflexivity |]. split.
    + intros i x Hx. destruct i; discriminate.
    + left. split; [reflexivity |]. split.
      * intros i x Hx. destruct i; discriminate.
      * eexists. reflexivity.
  - rewrite evaluate_all_cons in H.
    destruct (evaluate (evaluator (self st)) (trace (world st)) g)
      as [e0 | f0] eqn:E0.
    + inversion H; subst. exists 1%nat. simpl.
      split; [lia |]. split; [reflexivity |]. split.
      * intros i x Hx Hi. lia.
      * right. exists 0%nat, g, e0. simpl. rewrite app_nil_r. auto.
    + set (st1 := {| self := self st;
                     world := log (EvEvaluate g) (world st) |}) in *.
      destruct (evaluate_all genes st1) as [r1 st2] eqn:Em.
      destruct (IH st1 r1 st2 Em) as [k [Hk [Htr [Hbefore Hend]]]].
      simpl in Htr, Hbefore, Hend.
      assert (Hst : st' = st2) by (destruct r1; inversion H; reflexivity).
      subst st'. exists (S k). simpl.
      split; [lia |].
      split; [rewrite Htr, <- app_assoc; reflexivity |].
      assert (Hshift : forall i x,
                nth_error (g :: genes) i = Some x ->
                (i = 0%nat /\ x = g)
                \/ exists i', i = S i' /\ nth_error genes i' = Some x).
      { intros i x Hx. destruct i as [|i]; simpl in Hx.
        - inversion Hx. left. auto.
        - right. exists i. auto. }
      split.
      * intros i x Hx Hi.
        destruct (Hshift i x Hx) as [[Ei Ex] | [i' [Ei Hx']]]; subst.
        -- exists f0. simpl. now rewrite app_nil_r.
        -- destruct (Hbefore i' x Hx') as [f Hf]; [lia |].
           exists f. simpl. rewrite <- app_assoc in Hf. exact Hf.
      * destruct Hend as [[Ek [Hall [gf Hr]]] | [j [x [e [Ek [Hx [He Hr]]]]]]].
        -- left. split; [lia |]. split.
           ++ intros i x Hx.
              destruct (Hshift i x Hx) as [[Ei Ex] | [i' [Ei Hx']]]; subst.
              ** exists f0. simpl. now rewrite app_nil_r.
              ** destruct (Hall i' x Hx') as [f Hf].
                 exists f. simpl. rewrite <- app_assoc in Hf. exact Hf.
           ++ subst r1. inversion H. eexists. reflexivity.
        -- right. exists (S j), x, e. simpl.
           split; [lia |]. split; [exact Hx |].
           split; [rewrite <- app_assoc in He; exact He |].
           subst r1. inversion H. reflexivity.
Qed.

(** X5. Whatever the evaluator does, a call of [run_generations] with a
    positive count prints one line and then evaluates the organisms in
    the order of the population, each at most once, and stops at the
    first evaluation that raises: every evaluation before the last one
    recorded answered, and either all organisms were evaluated and all
    answered, or the last evaluation recorded raised and the call raises
    what it raised.  Nothing else is added to the trace. *)
Theorem evaluates_in_population_order (n : positive) (sp : bool) (st : State) :
  exists k,
    (k <= length (organisms (self st)))%nat
    /\ new_events st (snd (run_generations (Z.pos n) sp st))
       = EvPrint 0 :: map EvEvaluate (firstn k (organisms (self st)))
    /\ (forall i g,
          nth_error (organisms (self st)) i = Some g -> (S i < k)%nat ->
          exists f,
            evaluate (evaluator (self st))
              (trace (world st)
               ++ EvPrint 0 :: map EvEvaluate (firstn i (organisms (self st))))
              g
            = inr f)
    /\ ((k = length (organisms (self st))
         /\ forall i g,
              nth_error (organisms (self st)) i = Some g ->
              exists f,
                evaluate (evaluator (self st))
                  (trace (world st)
                   ++ EvPrint 0
                      :: map EvEvaluate (firstn i (organisms (self st))))
                  g
                = inr f)
        \/ (exists j g e,
              k = S j /\ nth_error (organisms (self st)) j = Some g
              /\ evaluate (evaluator (self st))
                   (trace (world st)
                    ++ EvPrint 0
                       :: map EvEvaluate (firstn j (organisms (self st))))
                   g
                 = inl e
              /\ fst (run_generations (Z.pos n) sp st) = Raise e)).
Proof.
  destruct (evaluate_all (organisms (self st)) (snd (print 0 st)))
    as [r st2] eqn:E.
  destruct (evaluate_all_stops _ _ _ _ E) as [k [Hk [Htr [Hbefore Hend]]]].
  simpl in Htr, Hbefore, Hend.
  assert (T : trace (world st2)
              = trace (world st)
                ++ EvPrint 0 :: map EvEvaluate (firstn k (organisms (self st))))
    by (rewrite Htr, <- app_assoc; reflexivity).
  assert (G : generation 0 st
              = match r with
                | Ok gf =>
                    match py_max gf snd with
                    | inl e => (Raise e, st2)
                    | inr best => (Raise TypeError, record_best best st2)
                    end
                | Raise e => (Raise e, st2)
                end).
  { rewrite generation_unfold, E. destruct r; reflexivity. }
  exists k. split; [exact Hk |]. split; [| split].
  - rewrite run_generations_pos_state, G.
    destruct r as [gf | e]; simpl.
    + destruct (py_max gf snd); simpl; apply new_events_app;
        rewrite ?record_best_world; exact T.
    + apply new_events_app. exact T.
  - intros i g Hg Hi. destruct (Hbefore i g Hg Hi) as [f Hf].
    exists f. rewrite <- app_assoc in Hf. exact Hf.
  - destruct Hend as [[Ek [Hall _]] | [j [g [e [Ek [Hg [He Hr]]]]]]].
    + left. split; [exact Ek |]. intros i g Hg.
      destruct (Hall i g Hg) as [f Hf].
      exists f. rewrite <- app_assoc in Hf. exact Hf.
    + right. exists j, g, e. split; [exact Ek |]. split; [exact Hg |].
      split; [rewrite <- app_assoc in He; exact He |].
      subst r. rewrite (run_generations_pos_exn n sp st e); [reflexivity |].
      now rewrite G.
Qed.

Lemma evaluates_in_population_order_witness :
  exists k,
    (k <= length (organisms (self failing_run_state)))%nat
    /\ new_events failing_run_state
         (snd (run_generations 2 false failing_run_state))
       = EvPrint 0
         :: map EvEvaluate (firstn k (organisms (self failing_run_state)))
    /\ (forall i g,
          nth_error (organisms (self failing_run_state)) i = Some g ->
          (S i < k)%nat ->
          exists f,
            evaluate failing_evaluator
              ([] ++ EvPrint 0
                  :: map EvEvaluate
                       (firstn i (organisms (self failing_run_state))))
              g
            = inr f)
    /\ ((k = length (organisms (self failing_run_state))
         /\ forall i g,
              nth_error (organisms (self failing_run_state)) i = Some g ->
              exists f,
                evaluate failing_evaluator
                  ([] ++ EvPrint 0
                      :: map EvEvaluate
                           (firstn i (organisms (self failing_run_state))))
                  g
                = inr f)
        \/ (exists j g e,
              k = S j
              /\ nth_error (organisms (self failing_run_state)) j = Some g
              /\ evaluate failing_evaluator
                   ([] ++ EvPrint 0
                       :: map EvEvaluate
                            (firstn j (organisms (self failing_run_state))))
                   g
                 = inl e
              /\ fst (run_generations 2 false failing_run_state) = Raise e)).
Proof. exact (evaluates_in_population_order 2 false failing_run_state). Defined.

(** In that run the second of three organisms fails: two evaluations
    are recorded and the third organism is not evaluated. *)
Lemma evaluation_stops_example :
  new_events failing_run_state
    (snd (run_generations 2 false failing_run_state))
  = [EvPrint 0; EvEvaluate (Gene "B"); EvEvaluate (Gene "Am")]
  /\ fst (run_generations 2 false failing_run_state)
     = Raise (Raised "evaluation failed").
Proof. split; reflexivity. Qed.

(** X6. When every organism of a non-empty population is evaluated
    without error, the call raises the [TypeError] of the survivor
    selection after exactly one evaluation per organism, in population
    order, and with the organisms unchanged. *)
Theorem evaluates_each_once (n : positive) (sp : bool) (st : State) :
  organisms (self st) <> [] ->
  (forall h x, In x (organisms (self st)) ->
     exists f, evaluate (evaluator (self st)) h x = inr f) ->
  fst (run_generations (Z.pos n) sp st) = Raise TypeError
  /\ new_events st (snd (run_generations (Z.pos n) sp st))
     = EvPrint 0 :: map EvEvaluate (organisms (self st))
  /\ organisms (self (snd (run_generations (Z.pos n) sp st)))
     = organisms (self st).
Proof.
  intros Hne Htot.
  destruct (generation_total 0 st Hne Htot)
    as [gf [st2 [b [_ [_ [G [_ [_ [Htr _]]]]]]]]].
  rewrite (run_generations_pos_exn n sp st TypeError) by (now rewrite G).
  rewrite G. simpl. split; [reflexivity |]. split.
  - apply new_events_app. now rewrite record_best_world.
  - pose proof (generation_organisms 0 st) as Ho. rewrite G in Ho. exact Ho.
Qed.

Lemma evaluates_each_once_witness :
  let st := {| self := sample_population 3 2
                         [Gene "A"; Gene "Bcc"; Gene "Cc"] (1 # 2);
               world := quiet (constant_tape 0) |} in
  fst (run_generations 2 false st) = Raise TypeError
  /\ new_events st (snd (run_generations 2 false st))
     = EvPrint 0 :: map EvEvaluate [Gene "A"; Gene "Bcc"; Gene "Cc"]
  /\ organisms (self (snd (run_generations 2 false st)))
     = [Gene "A"; Gene "Bcc"; Gene "Cc"].
Proof.
  intros st. apply (evaluates_each_once 2 false st).
  - simpl. discriminate.
  - intros h x Hx. simpl in Hx.
    destruct Hx as [E | [E | [E | []]]]; subst x; eexists; reflexivity.
Defined.

(** ** The best pair after a generation *)

Lemma record_best_cases (b : Obj * Z) (st : State) :
  (best_fitness (self st) < snd b
   /\ self (record_best b st) = set_best (Some (fst b)) (snd b) (self st))
  \/ (snd b <= best_fitness (self st) /\ record_best b st = st).
Proof.
  unfold record_best.
  destruct (Z.gtb_spec (snd b) (best_fitness (self st))).
  - left. split; [lia | reflexivity].
  - right. split; [lia | reflexivity].
Qed.

(** X7. For an evaluator with integer scores: when every organism of a
    non-empty population is evaluated without error, the best fitness
    stored after the call is the larger of the one stored before and the
    highest score of the generation: it is at least every score, at
    least the former value, and equal to one of them. *)
Theorem best_fitness_is_maximum (n : positive) (sp : bool) (st : State) :
  organisms (self st) <> [] ->
  (forall h x, In x (organisms (self st)) ->
     exists f, evaluate (evaluator (self st)) h x = inr f) ->
  exists gf,
    map fst gf = organisms (self st)
    /\ (forall i x f, nth_error gf i = Some (x, f) ->
          evaluate (evaluator (self st))
            (trace (world st)
             ++ EvPrint 0 :: map EvEvaluate (firstn i (organisms (self st)))) x
          = inr f)
    /\ Forall (fun p => snd p <= best_fitness
                          (self (snd (run_generations (Z.pos n) sp st)))) gf
    /\ best_fitness (self st)
       <= best_fitness (self (snd (run_generations (Z.pos n) sp st)))
    /\ (best_fitness (self (snd (run_generations (Z.pos n) sp st)))
        = best_fitness (self st)
        \/ In (best_fitness (self (snd (run_generations (Z.pos n) sp st))))
              (map snd gf)).
Proof.
  intros Hne Htot.
  destruct (generation_total 0 st Hne Htot)
    as [gf [st2 [b [_ [Hmax [G [Hs [_ [_ [Hm Hn]]]]]]]]]].
  exists gf. split; [exact Hm |]. split; [exact Hn |].
  rewrite run_generations_pos_state, G. simpl.
  destruct (py_max_first snd gf b Hmax) as [pre [post [Hd [Hpre Hpost]]]].
  assert (Hall : Forall (fun p => snd p <= snd b) gf).
  { rewrite Hd. apply Forall_app. split.
    - eapply Forall_impl; [| exact Hpre]. simpl. intros; lia.
    - constructor; [lia | exact Hpost]. }
  assert (Hin : In (snd b) (map snd gf)).
  { rewrite Hd, map_app. apply in_or_app. right. simpl. auto. }
  destruct (record_best_cases b st2) as [[Hlt Hr] | [Hle Hr]]; rewrite Hr.
  - simpl. rewrite Hs in Hlt. repeat split; auto; lia.
  - rewrite Hs in *. split; [| split; [lia | left; reflexivity]].
    eapply Forall_impl; [| exact Hall]. simpl. intros; lia.
Qed.

Lemma best_fitness_is_maximum_witness :
  let st := {| self := sample_population 3 2
                         [Gene "A"; Gene "Bcc"; Gene "Cc"] (1 # 2);
               world := quiet (constant_tape 0) |} in
  exists gf,
    map fst gf = [Gene "A"; Gene "Bcc"; Gene "Cc"]
    /\ (forall i x f, nth_error gf i = Some (x, f) ->
          evaluate length_evaluator
            ([] ++ EvPrint 0
                :: map EvEvaluate
                     (firstn i [Gene "A"; Gene "Bcc"; Gene "Cc"])) x
          = inr f)
    /\ Forall (fun p => snd p <= best_fitness
                          (self (snd (run_generations 1 false st)))) gf
    /\ sentinel <= best_fitness (self (snd (run_generations 1 false st)))
    /\ (best_fitness (self (snd (run_generations 1 false st))) = sentinel
        \/ In (best_fitness (self (snd (run_generations 1 false st))))
              (map snd gf)).
Proof.
  intros st. apply (best_fitness_is_maximum 1 false st).
  - simpl. discriminate.
  - intros h x Hx. simpl in Hx.
    destruct Hx as [E | [E | [E | []]]]; subst x; eexists; reflexivity.
Defined.

(** X8. For an evaluator with integer scores, and under the same
    conditions, the best gene is chosen as follows: among the organisms
    with the highest score of the generation the first in population
    order is the candidate; it replaces the stored best gene when its
    score is strictly above the stored best fitness, and otherwise, a
    tie included, the stored pair stays. *)
Theorem best_gene_is_first_maximum (n : positive) (sp : bool) (st : State) :
  organisms (self st) <> [] ->
  (forall h x, In x (organisms (self st)) ->
     exists f, evaluate (evaluator (self st)) h x = inr f) ->
  exists pre b post,
    map fst (pre ++ b :: post) = organisms (self st)
    /\ (forall i x f, nth_error (pre ++ b :: post) i = Some (x, f) ->
          evaluate (evaluator (self st))
            (trace (world st)
             ++ EvPrint 0 :: map EvEvaluate (firstn i (organisms (self st)))) x
          = inr f)
    /\ Forall (fun p => snd p < snd b) pre
    /\ Forall (fun p => snd p <= snd b) post
    /\ ((best_fitness (self st) < snd b
         /\ best_gene (self (snd (run_generations (Z.pos n) sp st)))
            = Some (fst b)
         /\ best_fitness (self (snd (run_generations (Z.pos n) sp st)))
            = snd b)
        \/ (snd b <= best_fitness (self st)
            /\ best_gene (self (snd (run_generations (Z.pos n) sp st)))
               = best_gene (self st)
            /\ best_fitness (self (snd (run_generations (Z.pos n) sp st)))
               = best_fitness (self st))).
Proof.
  intros Hne Htot.
  destruct (generation_total 0 st Hne Htot)
    as [gf [st2 [b [_ [Hmax [G [Hs [_ [_ [Hm Hn]]]]]]]]]].
  destruct (py_max_first snd gf b Hmax) as [pre [post [Hd [Hpre Hpost]]]].
  subst gf. exists pre, b, post.
  split; [exact Hm |]. split; [exact Hn |].
  split; [exact Hpre |]. split; [exact Hpost |].
  rewrite run_generations_pos_state, G. simpl.
  destruct (record_best_cases b st2) as [[Hlt Hr] | [Hle Hr]]; rewrite Hr.
  - left. rewrite Hs in Hlt. simpl. auto.
  - right. rewrite Hs in *. auto.
Qed.

Lemma best_gene_is_first_maximum_witness :
  let st := {| self := sample_population 3 2
                         [Gene "A"; Gene "Bc"; Gene "Cc"] (1 # 2);
               world := quiet (constant_tape 0) |} in
  exists pre b post,
    map fst (pre ++ b :: post) = [Gene "A"; Gene "Bc"; Gene "Cc"]
    /\ (forall i x f, nth_error (pre ++ b :: post) i = Some (x, f) ->
          evaluate length_evaluator
            ([] ++ EvPrint 0
                :: map EvEvaluate
                     (firstn i [Gene "A"; Gene "Bc"; Gene "Cc"])) x
          = inr f)
    /\ Forall (fun p => snd p < snd b) pre
    /\ Forall (fun p => snd p <= snd b) post
    /\ ((sentinel < snd b
         /\ best_gene (self (snd (run_generations 1 false st)))
            = Some (fst b)
         /\ best_fitness (self (snd (run_generations 1 false st))) = snd b)
        \/ (snd b <= sentinel
            /\ best_gene (self (snd (run_generations 1 false st))) = None
            /\ best_fitness (self (snd (run_generations 1 false st)))
               = sentinel)).
Proof.
  intros st. apply (best_gene_is_first_maximum 1 false st).
  - simpl. discriminate.
  - intros h x Hx. simpl in Hx.
    destruct Hx as [E | [E | [E | []]]]; subst x; eexists; reflexivity.
Defined.

(** ** What [run_generations] leaves alone *)

Lemma set_best_same (p : Population) :
  set_best (best_gene p) (best_fitness p) p = p.
Proof. destruct p; reflexivity. Qed.

(** X9. A call of [run_generations], whatever its count and however it
    ends, changes nothing of the object but the best gene and the best
    fitness: sizes, strategies, selection criteria, organisms and
    mutation probability stay; and it never reads the random source. *)
Theorem run_changes_only_best (n : Z) (sp : bool) (st : State) :
  exists g f,
    self (snd (run_generations n sp st)) = set_best g f (self st)
    /\ same_random st (snd (run_generations n sp st)).
Proof.
  destruct n as [| n | n].
  - rewrite run_generations_nonpos by lia. simpl.
    exists (best_gene (self st)), (best_fitness (self st)).
    rewrite set_best_same. split; [reflexivity | split; reflexivity].
  - rewrite run_generations_pos_state.
    destruct (generation_best 0 st)
      as [Hs | [gf [st2 [best [_ [_ [_ Hs]]]]]]].
    + exists (best_gene (self st)), (best_fitness (self st)).
      rewrite set_best_same. split; [exact Hs | apply generation_random].
    + exists (Some (fst best)), (snd best).
      split; [exact Hs | apply generation_random].
  - rewrite run_generations_nonpos by lia. simpl.
    exists (best_gene (self st)), (best_fitness (self st)).
    rewrite set_best_same. split; [reflexivity | split; reflexivity].
Qed.

(** X11. A negative count is accepted: the call returns the current
    organisms and changes nothing, as a count of zero does. *)
Theorem run_negative_count (n : Z) (sp : bool) (st : State) :
  n < 0 -> run_generations n sp st = (Ok (organisms (self st)), st).
Proof. intros H. apply run_generations_nonpos. lia. Qed.

Lemma run_negative_count_witness :
  run_generations (-2) true failing_run_state
  = (Ok (organisms (self failing_run_state)), failing_run_state).
Proof. apply (run_negative_count (-2) true failing_run_state). lia. Defined.

(** ** Calling again *)

Lemma evaluate_all_pure (genes : list Obj) :
  forall st st',
    evaluator (self st') = evaluator (self st) ->
    pure_evaluator (evaluator (self st)) ->
    fst (evaluate_all genes st') = fst (evaluate_all genes st).
Proof.
  induction genes as [|g genes IH]; intros st st' He Hp.
  - reflexivity.
  - rewrite !evaluate_all_cons. rewrite He.
    rewrite (Hp (trace (world st')) (trace (world st)) g).
    destruct (evaluate (evaluator (self st)) (trace (world st)) g)
      as [e | f]; [reflexivity |].
    set (s1 := {| self := self st; world := log (EvEvaluate g) (world st) |}).
    set (s1' := {| self := self st';
                   world := log (EvEvaluate g) (world st') |}).
    assert (H := IH s1 s1' He Hp).
    destruct (evaluate_all genes s1') as [[gf' | e'] t'];
      destruct (evaluate_all genes s1) as [[gf | e] t];
      simpl in *; congruence.
Qed.

Lemma generation_twice (st : State) :
  pure_evaluator (evaluator (self st)) ->
  self (snd (generation 0 (snd (generation 0 st))))
  = self (snd (generation 0 st)).
Proof.
  intros Hp.
  set (st1 := snd (generation 0 st)).
  assert (Ho : organisms (self st1) = organisms (self st))
    by apply generation_organisms.
  assert (Hev : evaluator (self st1) = evaluator (self st)).
  { destruct (stops_generation 0 st (fst (generation 0 st)) st1)
      as [[E _] _]; [apply surjective_pairing | exact E]. }
  rewrite (generation_unfold 0 st1). rewrite Ho.
  pose proof (evaluate_all_pure (organisms (self st))
                (snd (print 0 st)) (snd (print 0 st1)) Hev Hp) as Hf.
  pose proof (evaluate_all_self (organisms (self st)) (snd (print 0 st1)))
    as HsB.
  pose proof (evaluate_all_self (organisms (self st)) (snd (print 0 st)))
    as HsA.
  unfold same_self in HsA, HsB. unfold fst in Hf.
  assert (G : generation 0 st
              = match evaluate_all (organisms (self st)) (snd (print 0 st)) with
                | (Raise e, st2) => (Raise e, st2)
                | (Ok gene_fitnesses, st2) =>
                    match py_max gene_fitnesses snd with
                    | inl e => (Raise e, st2)
                    | inr best => (Raise TypeError, record_best best st2)
                    end
                end) by apply generation_unfold.
  destruct (evaluate_all (organisms (self st)) (snd (print 0 st1)))
    as [rB stB] eqn:EB;
    destruct (evaluate_all (organisms (self st)) (snd (print 0 st)))
      as [rA stA] eqn:EA.
  simpl in HsA, HsB. subst rB.
  destruct rA as [gf | e]; simpl; [| exact HsB].
  destruct (py_max gf snd) as [e | b]; simpl; [exact HsB |].
  assert (E1 : st1 = record_best b stA) by (unfold st1; now rewrite G).
  assert (Hge : snd b <= best_fitness (self st1)).
  { rewrite E1. destruct (record_best_cases b stA) as [[_ Hr] | [Hle Hr]];
      rewrite Hr; simpl; lia. }
  destruct (record_best_cases b stB) as [[Hlt _] | [_ Hr]].
  - rewrite HsB in Hlt. lia.
  - rewrite Hr. exact HsB.
Qed.

(** X10. With an evaluator whose answer depends on the gene alone, a
    second call of [run_generations] after a call with a positive count
    changes nothing of the object: the organisms are those of the first
    call, their scores are the same, and none is strictly above the best
    fitness the first call left. *)
Theorem rerun_changes_nothing (n : positive) (m : Z) (sp sp' : bool)
    (st : State) :
  pure_evaluator (evaluator (self st)) ->
  self (snd (run_generations m sp'
               (snd (run_generations (Z.pos n) sp st))))
  = self (snd (run_generations (Z.pos n) sp st)).
Proof.
  intros Hp. rewrite (run_generations_pos_state n sp st).
  destruct m as [| m | m].
  - rewrite run_generations_nonpos by lia. reflexivity.
  - rewrite run_generations_pos_state. apply generation_twice. exact Hp.
  - rewrite run_generations_nonpos by lia. reflexivity.
Qed.

Lemma rerun_changes_nothing_witness :
  let st := {| self := sample_population 3 2
                         [Gene "A"; Gene "Bcc"; Gene "Cc"] (1 # 2);
               world := quiet (constant_tape 0) |} in
  self (snd (run_generations 5 true (snd (run_generations 2 false st))))
  = self (snd (run_generations 2 false st)).
Proof.
  intros st. apply (rerun_changes_nothing 2 5 false true st).
  intros h h' g. reflexivity.
Defined.

(** ** An attribute that is stored and never read *)

Lemma evaluate_all_criteria (sc : string) (genes : list Obj) :
  forall st,
    evaluate_all genes (with_selection_criteria sc st)
    = (fst (evaluate_all genes st),
       with_selection_criteria sc (snd (evaluate_all genes st))).
Proof.
  induction genes as [|g genes IH]; intros st.
  - reflexivity.
  - rewrite !evaluate_all_cons. simpl.
    destruct (evaluate (evaluator (self st)) (trace (world st)) g)
      as [e | f]; [reflexivity |].
    set (s1 := {| self := self st; world := log (EvEvaluate g) (world st) |}).
    change {| self := set_selection_criteria sc (self st);
              world := log (EvEvaluate g) (world st) |}
      with (with_selection_criteria sc s1).
    rewrite IH.
    destruct (evaluate_all genes s1) as [[gf | e] t]; reflexivity.
Qed.

Lemma generation_criteria (sc : string) (g : nat) (st : State) :
  generation g (with_selection_criteria sc st)
  = (fst (generation g st), with_selection_criteria sc (snd (generation g st))).
Proof.
  rewrite !generation_unfold.
  change (snd (print g (with_selection_criteria sc st)))
    with (with_selection_criteria sc (snd (print g st))).
  change (organisms (self (with_selection_criteria sc st)))
    with (organisms (self st)).
  rewrite evaluate_all_criteria.
  destruct (evaluate_all (organisms (self st)) (snd (print g st)))
    as [[gf | e] st2]; simpl; [| reflexivity].
  destruct (py_max gf snd) as [e | b]; simpl; [reflexivity |].
  unfold record_best. simpl.
  destruct (snd b >? best_fitness (self st2)); reflexivity.
Qed.

(** X12. The selection criteria given at construction are stored and
    never consulted: with another value in that attribute a call of
    [run_generations] has the same outcome and leaves the same state,
    that attribute apart. *)
Theorem selection_criteria_ignored (sc : string) (n : Z) (sp : bool)
    (st : State) :
  run_generations n sp (with_selection_criteria sc st)
  = (fst (run_generations n sp st),
     with_selection_criteria sc (snd (run_generations n sp st))).
Proof.
  destruct n as [| n | n].
  - rewrite !run_generations_nonpos by lia. reflexivity.
  - destruct (generation_raises 0 st) as [e He].
    rewrite (run_generations_pos_exn n sp st e He).
    rewrite (run_generations_pos_exn n sp (with_selection_criteria sc st) e).
    + rewrite generation_criteria. reflexivity.
    + rewrite generation_criteria. exact He.
  - rewrite !run_generations_nonpos by lia. reflexivity.
Qed.

(** ** The refill loop at its edges *)

(** X13. On an empty list of survivors the first turn of the refill
    loop raises, with its one draw read and no strategy called:
    [IndexError] from [random.choice] when the draw sends it to
    mutation, [ValueError] from [random.sample] otherwise. *)
Theorem refill_of_nothing_raises (t : nat) (turns : list nat) (st : State) :
  refill (t :: turns) [] st
  = (Raise (if Qle_bool (unit_draw (next_raw st))
                        (mutate_probability (self st))
            then IndexError else ValueError),
     tick st).
Proof.
  simpl. unfold bind. rewrite refill_step_unfold.
  destruct (Qle_bool _ _); reflexivity.
Qed.

Lemma unit_draw_nonnegative (raw : N) : (0 <= unit_draw raw)%Q.
Proof.
  destruct (unit_draw_bounds raw) as [B D].
  unfold Qle. cbn [Qnum Qden]. lia.
Qed.

Lemma draw_above_negative (raw : N) (p : Q) :
  (p < 0)%Q -> Qle_bool (unit_draw raw) p = false.
Proof.
  intros Hp. destruct (Qle_bool (unit_draw raw) p) eqn:E; auto.
  apply Qle_bool_iff in E. exfalso.
  apply (Qlt_irrefl 0).
  eapply Qle_lt_trans; [apply (unit_draw_nonnegative raw) |].
  eapply Qle_lt_trans; [exact E | exact Hp].
Qed.

Lemma draw_below_large (raw : N) (p : Q) :
  (1 <= p)%Q -> Qle_bool (unit_draw raw) p = true.
Proof.
  intros Hp. apply Qle_bool_iff.
  eapply Qle_trans; [| exact Hp].
  apply Qle_bool_iff. apply draw_below_one. reflexivity.
Qed.

(** When the test of a turn has the same answer for every draw, the
    loop takes the same branch at every turn. *)
Lemma refill_forced (b : bool) (turns : list nat) :
  forall sg st,
    (forall raw,
       Qle_bool (unit_draw raw) (mutate_probability (self st)) = b) ->
    refill_frame (if b then is_mutate else is_breed) st
      (snd (refill turns sg st)).
Proof.
  induction turns as [|t turns IH]; intros sg st Hb; simpl.
  - apply refill_frame_refl.
  - unfold bind. rewrite refill_step_unfold, Hb.
    assert (Hstep : refill_frame (if b then is_mutate else is_breed) st
                      (snd ((if b then mutate_branch sg else breed_branch sg)
                              (tick st)))).
    { apply (refill_frame_trans _ _ (tick st)); [apply refill_frame_tick |].
      destruct b; [apply mutate_branch_frame | apply breed_branch_frame]. }
    assert (E : (if b then mutate_branch sg (tick st)
                 else breed_branch sg (tick st))
                = (if b then mutate_branch sg else breed_branch sg) (tick st))
      by (destruct b; reflexivity).
    rewrite E.
    destruct ((if b then mutate_branch sg else breed_branch sg) (tick st))
      as [[l | e] st1]; simpl in *; [| exact Hstep].
    eapply refill_frame_trans; [exact Hstep |]. apply IH.
    destruct Hstep as [S1 _]. unfold same_self in S1. now rewrite S1.
Qed.

(** X14. The mutation probability is never checked against [0, 1].
    With a negative value the refill loop calls no strategy but the
    breeder, whatever is drawn (a draw of 0.0 included); with a value of
    1 or more it calls no strategy but the mutator. *)
Theorem probability_out_of_range (turns : list nat) (sg : list Obj)
    (st : State) :
  ((mutate_probability (self st) < 0)%Q ->
   only_events is_breed st (snd (refill turns sg st)))
  /\ ((1 <= mutate_probability (self st))%Q ->
      only_events is_mutate st (snd (refill turns sg st))).
Proof.
  split; intros Hp.
  - apply (refill_forced false turns sg st).
    intros raw. apply draw_above_negative. exact Hp.
  - apply (refill_forced true turns sg st).
    intros raw. apply draw_below_large. exact Hp.
Qed.

Lemma probability_out_of_range_witness :
  only_events is_breed (refill_state (-1 # 2) (constant_tape 0))
    (snd (refill (range 2) [Gene "A"; Gene "B"]
            (refill_state (-1 # 2) (constant_tape 0))))
  /\ only_events is_mutate (refill_state (3 # 2) (constant_tape 5))
       (snd (refill (range 2) [Gene "A"; Gene "B"]
               (refill_state (3 # 2) (constant_tape 5)))).
Proof.
  split.
  - apply (proj1 (probability_out_of_range (range 2) [Gene "A"; Gene "B"]
                    (refill_state (-1 # 2) (constant_tape 0)))).
    reflexivity.
  - apply (proj2 (probability_out_of_range (range 2) [Gene "A"; Gene "B"]
                    (refill_state (3 # 2) (constant_tape 5)))).
    unfold Qle. simpl. lia.
Defined.
